(** * Reactor Core: the puzzle generator, the minimum-move solver and the
      play-time state transitions of [src/App.jsx], embedded in Rocq.

    Numbers of the game are JavaScript integers and are modelled as [Z];
    draws of [Math.random()] are modelled as rationals [Q] handed out by an
    explicit random source; the [Set] of visited sums, keyed in the source by
    the decimal string of an integer, is a [gset Z]. *)

From Stdlib Require Import ZArith QArith Qround Lia.
From stdpp Require Import base gmap sets list.

Open Scope Z_scope.

(* ------------------------------------------------------------------ *)
(** ** Cards *)

(** [card.type] is one of the two strings ['matter'] and ['antimatter']. *)
Inductive CardType := matter | antimatter.

(** A card as built by [create] in [generateDeck].  The fields [symbol],
    [name] and [ariaLabel] are display strings computed from [type] and
    [value]; no game logic reads them.  [id] is the random draw whose base-36
    rendering the source stores. *)
Record Card := mkCard { id : Q; type : CardType; value : Z }.

(** The signed delta of a card, as [calculateMinMoves] and the commit step of
    [handleCardClick] compute it:
    [card.type === 'antimatter' ? -card.value : card.value]. *)
Definition card_delta (card : Card) : Z :=
  match type card with antimatter => - value card | matter => value card end.

(* ------------------------------------------------------------------ *)
(** ** calculateMinMoves *)

(** An entry [{ current, moves }] of the search queue. *)
Record Node := mkNode { current : Z; moves : Z }.

(** The two mutable locals of [calculateMinMoves]. *)
Record SearchState := mkSearch { queue : list Node; visited : gset Z }.

(** Body of the [for (const card of availableCards)] loop for one card;
    [cur] and [mv] are the fields of the dequeued entry.  The sum and the
    bound are computed in [Z]; the source computes them in doubles.  The two
    agree while the target and the card values are below [2^52] in absolute
    value ([safe_size]): every entry of the queue is then at most
    [2^52 + 14] in absolute value, a sum of at most [2^53] is exact, and a
    larger one is, rounded or not, above the bound and dropped.  Statements
    that depend on the value of a sum carry that hypothesis. *)
Definition visit (target cur mv : Z) (st : SearchState) (card : Card) : SearchState :=
  let delta := match type card with antimatter => - value card | matter => value card end in
  let next := cur + delta in
  if negb (bool_decide (next ∈ visited st))
     && (Z.abs next <=? Z.abs target + 15) && (mv <? 8)
  then {| queue := queue st ++ [mkNode next (mv + 1)];
          visited := visited st ∪ {[ next ]} |}
  else st.

(** What one pass through the [while] body does: leave the function with a
    value, or go round again with the updated locals. *)
Inductive Outcome := Return (r : Z) | Continue (st : SearchState).

(** One test of [queue.length > 0] followed, when it holds, by one execution
    of the loop body; when it fails the function falls through to
    [return 1]. *)
Definition bfs_iteration (target : Z) (cards : list Card) (st : SearchState) : Outcome :=
  match queue st with
  | [] => Return 1
  | hd :: rest =>
      if current hd =? target then Return (moves hd)
      else Continue (fold_left (visit target (current hd) (moves hd)) cards
                       {| queue := rest; visited := visited st |})
  end.

(** The [while] loop, cut off after [fuel] iterations ([None]). *)
Fixpoint bfs_loop (fuel : nat) (target : Z) (cards : list Card) (st : SearchState)
  : option Z :=
  match fuel with
  | O => None
  | S fuel' =>
      match bfs_iteration target cards st with
      | Return r => Some r
      | Continue st' => bfs_loop fuel' target cards st'
      end
  end.

(** The locals at the loop head after [n] complete iterations, [None] when
    the function has returned before. *)
Fixpoint bfs_after (n : nat) (target : Z) (cards : list Card) (st : SearchState)
  : option SearchState :=
  match n with
  | O => Some st
  | S n' =>
      match bfs_iteration target cards st with
      | Return _ => None
      | Continue st' => bfs_after n' target cards st'
      end
  end.

(** [queue = [{ current: 0, moves: 0 }]], [visited = new Set(['0'])]. *)
Definition initial_search : SearchState :=
  {| queue := [mkNode 0 0]; visited := {[ 0 ]} |}.

(** A number of iterations the loop never exceeds (see
    [bfs_loop_terminates]). *)
Definition solver_fuel (target : Z) : nat :=
  Z.to_nat (4 * (Z.abs target + 15) + 2).

(** [calculateMinMoves(target, availableCards)]; the result is [Some] for
    every input ([calculateMinMoves_total]). *)
Definition calculateMinMoves (target : Z) (cards : list Card) : option Z :=
  bfs_loop (solver_fuel target) target cards initial_search.

(* ------------------------------------------------------------------ *)
(** ** Sequences of card applications *)

(** The running sums after each application, starting from [acc]. *)
Fixpoint partial_sums (acc : Z) (l : list Card) : list Z :=
  match l with
  | [] => []
  | c :: l' => (acc + card_delta c) :: partial_sums (acc + card_delta c) l'
  end.

(** The sum reached from [acc] by applying the cards of [l] in order. *)
Definition apply_cards (acc : Z) (l : list Card) : Z :=
  fold_left (fun s c => s + card_delta c) l acc.

(** [l] is a sequence of cards of [deck] that leads from 0 to [x] while
    every running sum has absolute value at most [bound]. *)
Record walk (bound : Z) (deck l : list Card) (x : Z) : Prop := {
  walk_cards : Forall (fun c => c ∈ deck) l;
  walk_bounded : Forall (fun s => Z.abs s <= bound) (partial_sums 0 l);
  walk_ends : apply_cards 0 l = x
}.

(** A sequence of at most 8 card applications that reaches [target] with its
    running sums within [|target| + 15].  The last running sum is [target]
    itself, for which the bound always holds, so it makes no difference
    whether it counts as an intermediate sum. *)
Definition valid_sequence (target : Z) (deck l : list Card) : Prop :=
  walk (Z.abs target + 15) deck l target /\ (length l <= 8)%nat.

(** The same, by number of applications: [x] is reached from 0 in exactly
    [k] applications whose running sums stay within [bound]. *)
Inductive reach (bound : Z) (deck : list Card) : nat -> Z -> Prop :=
| reach_start : reach bound deck O 0
| reach_step k x c :
    reach bound deck k x -> c ∈ deck -> Z.abs (x + card_delta c) <= bound ->
    reach bound deck (S k) (x + card_delta c).

(* ------------------------------------------------------------------ *)
(** ** The random source *)

(** [Math.random()] is read from an explicit source: the infinite sequence
    of its future results and the number of draws made so far. *)
Record RandomSource := mkSource { draws : nat -> Q; position : nat }.

(** Computations that draw random numbers. *)
Definition Rand (A : Type) : Type := RandomSource -> A * RandomSource.

Definition ret {A} (a : A) : Rand A := fun rs => (a, rs).

Definition bind {A B} (m : Rand A) (k : A -> Rand B) : Rand B :=
  fun rs => let (a, rs') := m rs in k a rs'.

Notation "'draw' x '<-' m ';;' k" := (bind m (fun x => k))
  (at level 10, x name, m at level 99, k at level 200).

(** [Math.random()]. *)
Definition random : Rand Q :=
  fun rs => (draws rs (position rs), mkSource (draws rs) (S (position rs))).

(** [Math.floor(Math.random() * n)] for an integer [n].  The product is
    taken exactly.  JavaScript rounds it to the nearest double, which can
    carry a product lying just below an integer onto that integer; for a
    draw below 1 and the multipliers the game uses (3, 4, 5 and their
    doubles) the rounded product still stays below the multiplier, so the
    set of possible results, [0 .. n - 1], is the same. *)
Definition random_floor (n : Z) : Rand Z :=
  draw r <- random ;; ret (Qfloor (r * inject_Z n)).

(** Every future draw lies in [[0, 1)], as [Math.random] promises. *)
Definition unit_draws (rs : RandomSource) : Prop :=
  forall i, (0 <= draws rs i)%Q /\ (draws rs i < 1)%Q.

(** The source whose first draws are those of [l] and whose later draws are
    all 1/2. *)
Definition source_of_list (l : list Q) : RandomSource :=
  mkSource (fun i => nth i l (1 # 2)) 0.

(* ------------------------------------------------------------------ *)
(** ** generateDeck *)

(** [a > b] on random draws. *)
Definition Qgtb (a b : Q) : bool := negb (Qle_bool a b).

(** [Array.prototype.sort] with a comparator that draws random numbers.
    The order in which an engine consults the comparator is left to the
    implementation; the model is the straight insertion sort, which moves
    each element left past the elements the comparator ranks above it.
    [rev_prefix] is the part already placed, last element first. *)
Fixpoint insert_sorted (cmp : Card -> Card -> Rand Q) (x : Card) (rev_prefix : list Card)
  : Rand (list Card) :=
  match rev_prefix with
  | [] => ret [x]
  | y :: rest =>
      draw v <- cmp y x ;;
      if Qgtb v 0
      then (draw placed <- insert_sorted cmp x rest ;; ret (y :: placed))
      else ret (x :: y :: rest)
  end.

Fixpoint sort_loop (cmp : Card -> Card -> Rand Q) (todo rev_prefix : list Card)
  : Rand (list Card) :=
  match todo with
  | [] => ret (rev rev_prefix)
  | x :: todo' => draw placed <- insert_sorted cmp x rev_prefix ;; sort_loop cmp todo' placed
  end.

Definition array_sort (cmp : Card -> Card -> Rand Q) (cards : list Card) : Rand (list Card) :=
  sort_loop cmp cards [].

(** [create(val, type)]: the only field not determined by the arguments is
    [id], a fresh draw. *)
Definition create (val : Z) (ty : CardType) : Rand Card :=
  draw r <- random ;; ret (mkCard r ty val).

(** [generateDeck(lvl)].  Arguments are evaluated before each call of
    [create], so the draws are: value, id, value, id, value, kind, id, and
    then those of the shuffle. *)
Definition generateDeck (lvl : Z) : Rand (list Card) :=
  let maxVal := Z.min (lvl / 2 + 3) 5 in
  draw v1 <- random_floor maxVal ;;
  draw c1 <- create (v1 + 1) antimatter ;;
  draw v2 <- random_floor maxVal ;;
  draw c2 <- create (v2 + 1) matter ;;
  draw v3 <- random_floor maxVal ;;
  draw k <- random ;;
  draw c3 <- create (v3 + 1) (if Qgtb k (1 # 2) then matter else antimatter) ;;
  array_sort (fun _ _ => draw r <- random ;; ret (r - (1 # 2))%Q) [c1; c2; c3].

(** The three cards of the array literal of [generateDeck], before the
    shuffle. *)
Definition fresh_cards (lvl : Z) : Rand (list Card) :=
  let maxVal := Z.min (lvl / 2 + 3) 5 in
  draw v1 <- random_floor maxVal ;;
  draw c1 <- create (v1 + 1) antimatter ;;
  draw v2 <- random_floor maxVal ;;
  draw c2 <- create (v2 + 1) matter ;;
  draw v3 <- random_floor maxVal ;;
  draw k <- random ;;
  draw c3 <- create (v3 + 1) (if Qgtb k (1 # 2) then matter else antimatter) ;;
  ret [c1; c2; c3].

(** The result of the [i]-th call (counting from 0) in a run of successive
    calls of [generateDeck(lvl)]. *)
Fixpoint nth_generated (i : nat) (lvl : Z) (rs : RandomSource) : list Card * RandomSource :=
  match i with
  | O => generateDeck lvl rs
  | S i' => nth_generated i' lvl (snd (generateDeck lvl rs))
  end.

(* ------------------------------------------------------------------ *)
(** ** UnitGrid *)




(* ------------------------------------------------------------------ *)
(** ** The game state and its handlers *)

Module Game.

(** [gameState]. *)
Inductive Screen := menu | playing | victory.

(** An entry of [moveHistory]: [{ type, value, name }], without the display
    name. *)
Record Move := mkMove { move_type : CardType; move_value : Z }.

(** The signed delta of the card that a history entry records. *)
Definition move_delta (m : Move) : Z :=
  match move_type m with antimatter => - move_value m | matter => move_value m end.

(** A callback waiting in [timeoutsRef.current].  The three nested timeouts
    of [handleCardClick] are one [CommitTimer]: the first two only start
    animations.  The callback closes over the clicked card and over the
    [leftConstant] of the render in which the click happened. *)
Inductive Timer :=
| CommitTimer (card : Card) (capturedLeft : Z)
| VictoryTimer.

(** The [useState] cells of [App] that the game logic reads or writes, and
    the pending timers. *)
Record State := mkState {
  level : Z;
  puzzlesSolved : Z;
  gameState : Screen;
  deck : list Card;
  leftConstant : Z;
  rightValue : Z;
  moves : Z;
  minMoves : Z;
  moveHistory : list Move;
  undoAvailable : Z;
  isAnimating : bool;
  selectedCardId : option Q;
  timeouts : list Timer
}.

(** The [do ... while (optimal > 6 && attempts < 20)] loop of [initLevel],
    cut off after [fuel] rounds; [attempts] is the counter before the
    round.  Returns [newDeck], [optimal] and the final [attempts]. *)
Fixpoint regenerate (fuel : nat) (lvl b attempts : Z) (rs : RandomSource)
  : option (list Card * Z * Z * RandomSource) :=
  match fuel with
  | O => None
  | S fuel' =>
      let (newDeck, rs1) := generateDeck lvl rs in
      match calculateMinMoves (- b) newDeck with
      | None => None
      | Some optimal =>
          let attempts := attempts + 1 in
          if (optimal >? 6) && (attempts <? 20)
          then regenerate fuel' lvl b attempts rs1
          else Some (newDeck, optimal, attempts, rs1)
      end
  end.

(** The two draws that open [initLevel]: [b] and [solution]. *)
Definition draw_offsets (lvl : Z) : Rand (Z * Z) :=
  let maxVal := Z.min 5 (lvl / 2 + 3) in
  draw b0 <- random_floor (maxVal * 2) ;;
  draw s0 <- random_floor (maxVal * 2) ;;
  ret (b0 - maxVal, s0 - maxVal).

(** [initLevel()], with the number of rounds of its loop as a third
    component.  It is called from the menu and the victory screen, so
    [setGameState('playing')] changes [gameState] and the effect cleanup
    clears the pending timeouts. *)
Definition initLevel_attempts (s : State) (rs : RandomSource)
  : option (State * RandomSource * Z) :=
  let '(b, solution, rs0) := draw_offsets (level s) rs in
  let c := solution + b in
  match regenerate 20 (level s) b 0 rs0 with
  | None => None
  | Some (newDeck, optimal, attempts, rs1) =>
      Some ({| level := level s;
               puzzlesSolved := puzzlesSolved s;
               gameState := playing;
               deck := newDeck;
               leftConstant := b;
               rightValue := c;
               moves := 0;
               minMoves := optimal;
               moveHistory := [];
               undoAvailable := 1;
               isAnimating := false;
               selectedCardId := None;
               timeouts := [] |}, rs1, attempts)
  end.

(** [initLevel()]. *)
Definition initLevel (s : State) (rs : RandomSource) : option (State * RandomSource) :=
  match initLevel_attempts s rs with
  | Some (s', rs', _) => Some (s', rs')
  | None => None
  end.

(** [handleCardClick(card)] up to the scheduling of its timeouts. *)
Definition handleCardClick (card : Card) (s : State) : State :=
  if isAnimating s then s
  else {| level := level s;
          puzzlesSolved := puzzlesSolved s;
          gameState := gameState s;
          deck := deck s;
          leftConstant := leftConstant s;
          rightValue := rightValue s;
          moves := moves s + 1;
          minMoves := minMoves s;
          moveHistory := moveHistory s ++ [mkMove (type card) (value card)];
          undoAvailable := undoAvailable s;
          isAnimating := true;
          selectedCardId := Some (id card);
          timeouts := [CommitTimer card (leftConstant s)] |}.

(** The innermost timeout callback of [handleCardClick] (source lines
    250-271): the card application is committed. *)
Definition commitCard (card : Card) (capturedLeft : Z) (s : State) : State :=
  let delta := match type card with antimatter => - value card | matter => value card end in
  let newLeft := capturedLeft + delta in
  {| level := level s;
     puzzlesSolved := puzzlesSolved s;
     gameState := gameState s;
     deck := deck s;
     leftConstant := leftConstant s + delta;
     rightValue := rightValue s + delta;
     moves := moves s;
     minMoves := minMoves s;
     moveHistory := moveHistory s;
     undoAvailable := undoAvailable s;
     isAnimating := false;
     selectedCardId := None;
     timeouts := if newLeft =? 0 then timeouts s ++ [VictoryTimer] else timeouts s |}.

(** The callback of the victory timeout.  The change of [gameState] runs the
    cleanup of the effect that depends on it, which clears every pending
    timeout. *)
Definition showVictory (s : State) : State :=
  {| level := level s;
     puzzlesSolved := puzzlesSolved s;
     gameState := victory;
     deck := deck s;
     leftConstant := leftConstant s;
     rightValue := rightValue s;
     moves := moves s;
     minMoves := minMoves s;
     moveHistory := moveHistory s;
     undoAvailable := undoAvailable s;
     isAnimating := isAnimating s;
     selectedCardId := selectedCardId s;
     timeouts := [] |}.

(** The guard that opens [handleUndo]:
    [moveHistory.length === 0 || isAnimating || undoAvailable <= 0]. *)
Definition undo_refused (s : State) : bool :=
  (length (moveHistory s) =? 0)%nat || isAnimating s || (undoAvailable s <=? 0).

(** [handleUndo()]. *)
Definition handleUndo (s : State) : State :=
  if undo_refused s then s
  else
    match last (moveHistory s) with
    | None => s
    | Some last =>
        let delta := match move_type last with
                     | antimatter => move_value last
                     | matter => - move_value last
                     end in
        {| level := level s;
           puzzlesSolved := puzzlesSolved s;
           gameState := gameState s;
           deck := deck s;
           leftConstant := leftConstant s + delta;
           rightValue := rightValue s + delta;
           moves := moves s - 1;
           minMoves := minMoves s;
           moveHistory := removelast (moveHistory s);
           undoAvailable := undoAvailable s - 1;
           isAnimating := isAnimating s;
           selectedCardId := selectedCardId s;
           timeouts := timeouts s |}
    end.

(** What can happen to a puzzle in play: a tap on a card, the firing of the
    oldest pending timer, a tap on the undo button. *)
Inductive Event := Click (card : Card) | Fire | Undo.

(** The timer callbacks; a fired timer leaves the pending list. *)
Definition fire (s : State) : State :=
  match timeouts s with
  | [] => s
  | t :: rest =>
      let s' := {| level := level s;
                   puzzlesSolved := puzzlesSolved s;
                   gameState := gameState s;
                   deck := deck s;
                   leftConstant := leftConstant s;
                   rightValue := rightValue s;
                   moves := moves s;
                   minMoves := minMoves s;
                   moveHistory := moveHistory s;
                   undoAvailable := undoAvailable s;
                   isAnimating := isAnimating s;
                   selectedCardId := selectedCardId s;
                   timeouts := rest |} in
      match t with
      | CommitTimer card capturedLeft => commitCard card capturedLeft s'
      | VictoryTimer => showVictory s'
      end
  end.

Definition step (s : State) (e : Event) : State :=
  match e with
  | Click card => handleCardClick card s
  | Fire => fire s
  | Undo => handleUndo s
  end.

(** The state after a sequence of events. *)
Definition run (s : State) (trace : list Event) : State := fold_left step trace s.

(** The number of undo taps of [trace] that [handleUndo] did not refuse,
    starting from [s]. *)
Fixpoint undos_performed (s : State) (trace : list Event) : nat :=
  match trace with
  | [] => O
  | e :: trace' =>
      ((match e with
        | Undo => if undo_refused s then 0 else 1
        | _ => 0
        end) + undos_performed (step s e) trace')%nat
  end.

(** The handler of the NEXT CORE button of the victory screen:
    [setLevel(l => l+1); setPuzzlesSolved(p => p+1); initLevel()].  The two
    functional updates take effect with the next render, so [initLevel]
    still reads the [level] of the render in which the button was shown. *)
Definition handleNextCore (s : State) (rs : RandomSource) : option (State * RandomSource) :=
  match initLevel s rs with
  | Some (s', rs') =>
      Some ({| level := level s + 1;
               puzzlesSolved := puzzlesSolved s + 1;
               gameState := gameState s';
               deck := deck s';
               leftConstant := leftConstant s';
               rightValue := rightValue s';
               moves := moves s';
               minMoves := minMoves s';
               moveHistory := moveHistory s';
               undoAvailable := undoAvailable s';
               isAnimating := isAnimating s';
               selectedCardId := selectedCardId s';
               timeouts := timeouts s' |}, rs')
  | None => None
  end.

(** The sum of the signed deltas that a history records. *)
Definition history_sum (h : list Move) : Z :=
  fold_right (fun m acc => move_delta m + acc) 0 h.

(** How the cells of a puzzle in play hang together, [b] being the
    [leftConstant] the puzzle started with: the move count is the length of
    the history; while no card is in flight [leftConstant] is [b] plus the
    deltas of the history and only victory timers are pending; while a card
    is in flight its move is the last of the history, not yet added to
    [leftConstant], and the one pending timer is its commit, which has
    captured the current [leftConstant]. *)
Definition consistent (b : Z) (s : State) : Prop :=
  moves s = Z.of_nat (length (moveHistory s))
  /\ if isAnimating s
     then exists card h,
         moveHistory s = h ++ [mkMove (type card) (value card)]
         /\ timeouts s = [CommitTimer card (leftConstant s)]
         /\ leftConstant s = b + history_sum h
     else leftConstant s = b + history_sum (moveHistory s)
          /\ Forall (fun t => t = VictoryTimer) (timeouts s).

(** The state of [App] when it mounts: the initial values of its [useState]
    cells, with the level and the solved count read from local storage. *)
Definition initial_state (storedLevel storedSolved : Z) : State :=
  {| level := storedLevel;
     puzzlesSolved := storedSolved;
     gameState := menu;
     deck := [];
     leftConstant := 0;
     rightValue := 0;
     moves := 0;
     minMoves := 0;
     moveHistory := [];
     undoAvailable := 1;
     isAnimating := false;
     selectedCardId := None;
     timeouts := [] |}.

(** A puzzle in play after one application of Matter 3 to [E - 1 = 1]; the
    examples below start from it. *)
Definition sample_state : State :=
  {| level := 1;
     puzzlesSolved := 0;
     gameState := playing;
     deck := [mkCard 0 antimatter 1; mkCard 0 matter 2; mkCard 0 matter 3];
     leftConstant := 2;
     rightValue := 4;
     moves := 1;
     minMoves := 2;
     moveHistory := [mkMove matter 3];
     undoAvailable := 1;
     isAnimating := false;
     selectedCardId := None;
     timeouts := [] |}.

End Game.

(* ------------------------------------------------------------------ *)
(** ** Definitions used by the proofs *)

(** The sums the search may ever mark as visited. *)
Definition in_range (target : Z) : gset Z :=
  list_to_set (seqZ (- (Z.abs target + 15)) (2 * (Z.abs target + 15) + 1)).

(** A quantity that every iteration of the search loop decreases. *)
Definition search_measure (target : Z) (st : SearchState) : nat :=
  (2 * (size (in_range target) - size (visited st)) + length (queue st))%nat.

(** [j] is the least number of applications that reach [x]. *)
Definition shortest (bound : Z) (deck : list Card) (x : Z) (j : nat) : Prop :=
  reach bound deck j x /\ forall i, reach bound deck i x -> (j <= i)%nat.

(** Every in-bounds neighbour of [x] is in [V]. *)
Definition closed_at (bound : Z) (deck : list Card) (V : gset Z) (x : Z) : Prop :=
  forall c, c ∈ deck -> Z.abs (x + card_delta c) <= bound -> x + card_delta c ∈ V.

(** The loop invariant of the search, at the head of the [while]: the queue
    holds entries of depth [k] followed by entries of depth [k + 1]; each
    entry carries the least number of applications that reach its sum;
    every sum reachable in at most [k] applications is visited; and a visited
    sum that has left the queue is not the target and, unless it sat at
    depth 8, has all its in-bounds neighbours visited. *)
Record search_inv (target : Z) (deck : list Card) (k : nat) (st : SearchState) : Prop := {
  inv_levels : exists qa qb,
      queue st = qa ++ qb
      /\ Forall (fun n => moves n = Z.of_nat k) qa
      /\ Forall (fun n => moves n = Z.of_nat (S k)) qb;
  inv_depth : Forall (fun n => moves n <= 8) (queue st);
  inv_queue : Forall (fun n =>
      current n ∈ visited st
      /\ exists j, moves n = Z.of_nat j
                  /\ shortest (Z.abs target + 15) deck (current n) j) (queue st);
  inv_seen : forall x j,
      reach (Z.abs target + 15) deck j x -> (j <= k)%nat -> x ∈ visited st;
  inv_done : forall x,
      x ∈ visited st -> x ∉ (current <$> queue st) ->
      x <> target
      /\ exists m, (forall i, reach (Z.abs target + 15) deck i x -> (m <= i)%nat)
                  /\ ((m < 8)%nat ->
                      closed_at (Z.abs target + 15) deck (visited st) x)
}.

(** The sum of the signed deltas of a list of cards. *)
Definition delta_sum (l : list Card) : Z :=
  fold_right (fun c acc => card_delta c + acc) 0 l.

(** Inputs of [calculateMinMoves] for which the arithmetic of the source, on
    doubles, gives the integers of the model: the target and every card
    value are below [2^52] in absolute value. *)
Definition safe_size (target : Z) (deck : list Card) : Prop :=
  Z.abs target < 2 ^ 52 /\ Forall (fun c => Z.abs (value c) < 2 ^ 52) deck.

(** The card of the other kind with the same value. *)
Definition mirror (c : Card) : Card :=
  mkCard (id c) (match type c with matter => antimatter | antimatter => matter end)
    (value c).


(** What the search keeps true of its queue and visited set: no sum is
    queued twice, every queued sum is visited, every visited sum is within
    [|target| + 15], and depths lie between 0 and 8. *)
Definition tidy (target : Z) (st : SearchState) : Prop :=
  NoDup (current <$> queue st)
  /\ Forall (fun n => current n ∈ visited st /\ 0 <= moves n <= 8) (queue st)
  /\ (forall x, x ∈ visited st -> Z.abs x <= Z.abs target + 15).

(** Goals [Forall P l] on a list written out in full. *)
Ltac forall_list :=
  repeat first [ apply Forall_nil_2 | apply Forall_cons_2 ].

(** Goals [safe_size t d] on a target and a deck written out in full. *)
Ltac safe_inputs :=
  split; [vm_compute; reflexivity
         | repeat first [ apply Forall_nil_2
                        | apply Forall_cons_2; [vm_compute; reflexivity |] ]].

(** Goals [c ∈ l] on a list written out in full. *)
Ltac in_list :=
  repeat first [ apply list_elem_of_here | apply list_elem_of_further ].

(* ------------------------------------------------------------------ *)
(** ** The search loop terminates *)

Lemma elem_of_in_range target x :
  x ∈ in_range target <-> Z.abs x <= Z.abs target + 15.
Proof.
  unfold in_range. rewrite elem_of_list_to_set, elem_of_seqZ. lia.
Qed.

Lemma size_in_range target :
  size (in_range target) = Z.to_nat (2 * (Z.abs target + 15) + 1).
Proof.
  unfold in_range. rewrite size_list_to_set by apply NoDup_seqZ.
  apply length_seqZ.
Qed.

(** The two ways [visit] can go. *)
Lemma visit_cases target cur mv st card :
  ((cur + card_delta card ∉ visited st)
   /\ Z.abs (cur + card_delta card) <= Z.abs target + 15
   /\ mv < 8
   /\ visit target cur mv st card =
        {| queue := queue st ++ [mkNode (cur + card_delta card) (mv + 1)];
           visited := visited st ∪ {[ cur + card_delta card ]} |})
  \/ (~ ((cur + card_delta card ∉ visited st)
         /\ Z.abs (cur + card_delta card) <= Z.abs target + 15
         /\ mv < 8)
      /\ visit target cur mv st card = st).
Proof.
  unfold visit, card_delta.
  set (next := cur + _).
  destruct (bool_decide (next ∈ visited st)) eqn:Hin; simpl.
  - right. apply bool_decide_eq_true in Hin. tauto.
  - apply bool_decide_eq_false in Hin.
    destruct (Z.abs next <=? Z.abs target + 15) eqn:Hb; simpl.
    + destruct (mv <? 8) eqn:Hm.
      * left. apply Z.leb_le in Hb. apply Z.ltb_lt in Hm. tauto.
      * right. apply Z.ltb_ge in Hm. split; [lia | reflexivity].
    + right. apply Z.leb_gt in Hb. split; [lia | reflexivity].
Qed.

Lemma visit_measure target cur mv st card :
  visited st ⊆ in_range target ->
  visited (visit target cur mv st card) ⊆ in_range target
  /\ (search_measure target (visit target cur mv st card)
      <= search_measure target st)%nat.
Proof.
  intros Hsub.
  destruct (visit_cases target cur mv st card)
    as [(Hnew & Hb & _ & Heq) | (_ & Heq)]; rewrite Heq;
    [| split; [assumption | lia]].
  assert (Hsub' : visited st ∪ {[cur + card_delta card]} ⊆ in_range target).
  { apply union_subseteq. split; [assumption |].
    apply singleton_subseteq_l, elem_of_in_range, Hb. }
  split; [exact Hsub' |].
  unfold search_measure; simpl.
  assert (Hdisj : visited st ## {[cur + card_delta card]}) by set_solver.
  apply subseteq_size in Hsub'.
  rewrite (size_union _ _ Hdisj), size_singleton in Hsub'.
  rewrite (size_union _ _ Hdisj), size_singleton.
  rewrite length_app; simpl. lia.
Qed.

Lemma fold_visit_measure target cur mv cards st :
  visited st ⊆ in_range target ->
  visited (fold_left (visit target cur mv) cards st) ⊆ in_range target
  /\ (search_measure target (fold_left (visit target cur mv) cards st)
      <= search_measure target st)%nat.
Proof.
  revert st. induction cards as [| c cards IH]; intros st Hsub; simpl.
  - split; [assumption | lia].
  - destruct (visit_measure target cur mv st c Hsub) as [Hsub1 Hle1].
    destruct (IH _ Hsub1) as [Hsub2 Hle2].
    split; [assumption | lia].
Qed.

Lemma bfs_iteration_measure target cards st st' :
  bfs_iteration target cards st = Continue st' ->
  visited st ⊆ in_range target ->
  visited st' ⊆ in_range target
  /\ (search_measure target st' < search_measure target st)%nat.
Proof.
  unfold bfs_iteration. intros Hit Hsub.
  destruct (queue st) as [| hd rest] eqn:Hq; [discriminate |].
  destruct (current hd =? target); [discriminate |].
  injection Hit as <-.
  destruct (fold_visit_measure target (current hd) (moves hd) cards
              {| queue := rest; visited := visited st |} Hsub) as [Hsub' Hle].
  split; [exact Hsub' |].
  unfold search_measure in *. simpl in Hle. rewrite Hq. simpl. lia.
Qed.

Lemma bfs_loop_terminates target cards fuel st :
  visited st ⊆ in_range target ->
  (search_measure target st < fuel)%nat ->
  exists r, bfs_loop fuel target cards st = Some r.
Proof.
  revert st. induction fuel as [| fuel IH]; intros st Hsub Hlt; [lia |].
  simpl. destruct (bfs_iteration target cards st) as [r | st'] eqn:Hit.
  - eauto.
  - destruct (bfs_iteration_measure _ _ _ _ Hit Hsub) as [Hsub' Hlt'].
    apply IH; [assumption | lia].
Qed.

Lemma initial_search_measure target :
  visited initial_search ⊆ in_range target
  /\ (search_measure target initial_search < solver_fuel target)%nat.
Proof.
  split.
  - simpl. apply singleton_subseteq_l, elem_of_in_range. lia.
  - unfold search_measure, solver_fuel, initial_search; cbn [visited queue].
    rewrite size_in_range, size_singleton. simpl length. lia.
Qed.

(** The loop of [calculateMinMoves] ends within [solver_fuel] iterations. *)
Lemma calculateMinMoves_total target cards :
  exists r, calculateMinMoves target cards = Some r.
Proof.
  destruct (initial_search_measure target) as [Hsub Hlt].
  apply bfs_loop_terminates; assumption.
Qed.

(** More fuel does not change a result, and the state after [n] iterations
    determines the rest of the run. *)
Lemma bfs_loop_after target cards n : forall st st' fuel,
  bfs_after n target cards st = Some st' ->
  bfs_loop (n + fuel) target cards st = bfs_loop fuel target cards st'.
Proof.
  induction n as [| n IH]; intros st st' fuel H; simpl in *.
  - congruence.
  - destruct (bfs_iteration target cards st); [discriminate |]. auto.
Qed.

Lemma bfs_loop_running target cards n : forall st st' fuel,
  bfs_after n target cards st = Some st' ->
  (fuel <= n)%nat -> bfs_loop fuel target cards st = None.
Proof.
  induction n as [| n IH]; intros st st' fuel H Hle; simpl in *.
  - replace fuel with O by lia. reflexivity.
  - destruct fuel as [| fuel]; [reflexivity |]. simpl.
    destruct (bfs_iteration target cards st); [discriminate |].
    eapply IH; [eassumption | lia].
Qed.

(* ------------------------------------------------------------------ *)
(** ** The search loop is a breadth-first search *)

Section Search.
Variable target : Z.
Variable deck : list Card.

Abbreviation B := (Z.abs target + 15).

(** What the [for] loop over the cards adds to the queue and to the
    visited set. *)
Lemma fold_visit_spec cur mv cs : forall st,
  (forall c, c ∈ cs -> c ∈ deck) ->
  exists news,
    queue (fold_left (visit target cur mv) cs st) = queue st ++ news
    /\ Forall (fun n =>
         moves n = mv + 1 /\ mv < 8
         /\ (current n ∉ visited st)
         /\ Z.abs (current n) <= B
         /\ (exists c, c ∈ deck /\ current n = cur + card_delta c)
         /\ current n ∈ visited (fold_left (visit target cur mv) cs st)) news
    /\ visited st ⊆ visited (fold_left (visit target cur mv) cs st)
    /\ (forall z, z ∈ visited (fold_left (visit target cur mv) cs st) ->
                  z ∈ visited st \/ z ∈ (current <$> news))
    /\ (forall c, c ∈ cs -> Z.abs (cur + card_delta c) <= B -> mv < 8 ->
                  cur + card_delta c ∈ visited (fold_left (visit target cur mv) cs st)).
Proof.
  induction cs as [| c cs IH]; intros st Hdeck; simpl.
  - exists []. rewrite app_nil_r.
    repeat split; auto; try set_solver.
  - destruct (IH (visit target cur mv st c)) as (news & Hq & Hnews & Hsub & Hsrc & Hcl).
    { intros c' Hc'. apply Hdeck. set_solver. }
    set (st' := fold_left (visit target cur mv) cs (visit target cur mv st c)) in *.
    destruct (visit_cases target cur mv st c)
      as [(Hnew & Hb & Hm & Heq) | (Hno & Heq)]; rewrite Heq in *; simpl in *.
    + exists (mkNode (cur + card_delta c) (mv + 1) :: news).
      split; [rewrite Hq, <- app_assoc; reflexivity |].
      split.
      { constructor.
        - simpl. repeat split; auto.
          + exists c. split; [apply Hdeck; set_solver | reflexivity].
          + apply Hsub. set_solver.
        - eapply Forall_impl; [exact Hnews |].
          intros n (H1 & H2 & H3 & H4 & H5 & H6).
          repeat split; auto. set_solver. }
      split; [set_solver |].
      split.
      { intros z Hz. destruct (Hsrc z Hz) as [Hz' | Hz'].
        - apply elem_of_union in Hz' as [Hz' | Hz']; [left; assumption |].
          right. apply elem_of_singleton in Hz'. subst z. simpl. set_solver.
        - right. simpl. set_solver. }
      intros c' Hc' Hb' Hm'.
      apply elem_of_cons in Hc' as [-> | Hc'].
      * apply Hsub. set_solver.
      * apply Hcl; assumption.
    + exists news.
      split; [assumption |].
      split; [assumption |].
      split; [assumption |].
      split; [assumption |].
      intros c' Hc' Hb' Hm'.
      apply elem_of_cons in Hc' as [-> | Hc'].
      * apply Hsub.
        destruct (decide (cur + card_delta c ∈ visited st)) as [Hin | Hout];
          [assumption | exfalso; apply Hno; auto].
      * apply Hcl; assumption.
Qed.

Lemma search_inv_initial : search_inv target deck 0 initial_search.
Proof.
  split; simpl.
  - exists [mkNode 0 0], []. repeat split; repeat constructor.
  - repeat constructor. simpl. lia.
  - constructor; [| constructor]. simpl. split; [set_solver |].
    exists O. split; [reflexivity |]. split; [constructor | intros; lia].
  - intros x j Hr Hj. assert (j = O) by lia. subst j.
    inversion Hr; subst. set_solver.
  - intros x Hx Hnot. exfalso. apply Hnot. set_solver.
Qed.

Lemma reach_bounded j x :
  reach B deck (S j) x -> Z.abs x <= B.
Proof. intros Hr. inversion Hr; subst. assumption. Qed.

(** The depth of the head of the queue can serve as the [k] of the
    invariant. *)
Lemma search_inv_head k st hd rest :
  search_inv target deck k st ->
  queue st = hd :: rest ->
  exists k' qa qb,
    search_inv target deck k' st
    /\ moves hd = Z.of_nat k'
    /\ rest = qa ++ qb
    /\ Forall (fun n => moves n = Z.of_nat k') qa
    /\ Forall (fun n => moves n = Z.of_nat (S k')) qb.
Proof.
  intros Hinv Hq.
  destruct (inv_levels _ _ _ _ Hinv) as (qa & qb & Hsplit & Hqa & Hqb).
  destruct qa as [| a qa].
  - (* the entries of depth [k] are used up: the invariant holds at [k + 1] *)
    simpl in Hsplit. rewrite Hq in Hsplit. subst qb.
    exists (S k), rest, [].
    apply Forall_cons in Hqb as [Hhd Hrest].
    split; [| rewrite app_nil_r; repeat split; auto].
    assert (Hk : (S k <= 8)%nat).
    { pose proof (inv_depth _ _ _ _ Hinv) as Hd. rewrite Hq in Hd.
      apply Forall_cons in Hd as [Hd _]. lia. }
    split.
    + exists (hd :: rest), []. rewrite app_nil_r.
      repeat split; auto.
    + apply (inv_depth _ _ _ _ Hinv).
    + apply (inv_queue _ _ _ _ Hinv).
    + intros x j Hr Hj.
      destruct (decide (j <= k)%nat) as [Hle | Hgt];
        [eapply (inv_seen _ _ _ _ Hinv); eassumption |].
      assert (j = S k) by lia. subst j.
      inversion Hr as [| k0 y c Hy Hc Hb]; subst.
      assert (Hyv : y ∈ visited st)
        by (eapply (inv_seen _ _ _ _ Hinv); [eassumption | lia]).
      destruct (decide (y ∈ (current <$> queue st))) as [Hyq | Hyq].
      * exfalso.
        apply list_elem_of_fmap in Hyq as (n & -> & Hn).
        pose proof (inv_queue _ _ _ _ Hinv) as Hqs.
        rewrite Forall_forall in Hqs.
        destruct (Hqs n Hn) as (_ & j & Hj' & _ & Hmin).
        assert (Hn' : moves n = Z.of_nat (S k)).
        { rewrite Hq in Hn. apply elem_of_cons in Hn as [-> | Hn]; [assumption |].
          rewrite Forall_forall in Hrest. auto. }
        specialize (Hmin _ Hy). lia.
      * destruct (inv_done _ _ _ _ Hinv y Hyv Hyq) as (_ & m & Hmin & Hcl).
        specialize (Hmin _ Hy).
        apply Hcl; [lia | assumption | assumption].
    + apply (inv_done _ _ _ _ Hinv).
  - simpl in Hsplit. rewrite Hq in Hsplit. injection Hsplit as <- ->.
    apply Forall_cons in Hqa as [Hhd Hqa].
    exists k, qa, qb. split; [exact Hinv | auto].
Qed.

(** One iteration that does not return keeps the invariant. *)
Lemma search_inv_step k st st' :
  search_inv target deck k st ->
  bfs_iteration target deck st = Continue st' ->
  exists k', search_inv target deck k' st'.
Proof.
  intros Hinv0 Hit. unfold bfs_iteration in Hit.
  destruct (queue st) as [| hd rest] eqn:Hq; [discriminate |].
  destruct (Z.eqb_spec (current hd) target) as [| Hne]; [discriminate |].
  injection Hit as <-.
  destruct (search_inv_head _ _ _ _ Hinv0 Hq)
    as (k' & qa & qb & Hinv & Hhd & Hrest & Hqa & Hqb).
  clear Hinv0 k. exists k'.
  set (st0 := {| queue := rest; visited := visited st |}).
  destruct (fold_visit_spec (current hd) (moves hd) deck st0)
    as (news & Hq' & Hnews & Hsub & Hsrc & Hcl); [auto |].
  set (st' := fold_left (visit target (current hd) (moves hd)) deck st0) in *.
  simpl in Hq', Hsub, Hsrc, Hnews.
  pose proof (inv_queue _ _ _ _ Hinv) as Hqs. rewrite Hq in Hqs.
  apply Forall_cons in Hqs as [(Hhdv & j & Hj & Hreach & Hmin) Hqs].
  assert (j = k') by lia. subst j.
  pose proof (inv_depth _ _ _ _ Hinv) as Hd. rewrite Hq in Hd.
  apply Forall_cons in Hd as [Hd0 Hd].
  split.
  - exists qa, (qb ++ news). rewrite Hq', Hrest, <- app_assoc.
    repeat split; auto.
    apply Forall_app. split; [assumption |].
    eapply Forall_impl; [exact Hnews |]. simpl. intros n (H1 & _). lia.
  - rewrite Hq'. apply Forall_app. split; [assumption |].
    eapply Forall_impl; [exact Hnews |]. simpl. intros n (H1 & H2 & _). lia.
  - rewrite Hq'. apply Forall_app. split.
    + eapply Forall_impl; [exact Hqs |]. simpl.
      intros n (Hv & Hs). split; [apply Hsub, Hv | exact Hs].
    + eapply Forall_impl; [exact Hnews |]. simpl.
      intros n (H1 & H2 & H3 & H4 & (c & Hc & Hn) & H6).
      split; [assumption |].
      exists (S k'). split; [lia |]. split.
      * rewrite Hn. constructor; [assumption | assumption | rewrite <- Hn; assumption].
      * intros i Hi.
        destruct (decide (i <= k')%nat) as [Hle | Hgt]; [| lia].
        exfalso. apply H3. eapply (inv_seen _ _ _ _ Hinv); eassumption.
  - intros x i Hr Hi. apply Hsub. eapply (inv_seen _ _ _ _ Hinv); eassumption.
  - intros x Hx Hnq. rewrite Hq' in Hnq.
    destruct (Hsrc x Hx) as [Hold | Hnew];
      [| exfalso; apply Hnq; rewrite fmap_app; set_solver].
    destruct (decide (x = current hd)) as [-> | Hxhd].
    + split; [assumption |].
      exists k'. split; [exact Hmin |].
      intros Hk c Hc Hb. apply Hcl; [assumption | assumption | lia].
    + destruct (inv_done _ _ _ _ Hinv x Hold) as (Hxt & m & Hm & Hclosed).
      { rewrite Hq. rewrite fmap_cons. intros Hin.
        apply elem_of_cons in Hin as [Hin | Hin]; [contradiction |].
        apply Hnq. rewrite fmap_app. set_solver. }
      split; [assumption |].
      exists m. split; [assumption |].
      intros Hm8 c Hc Hb. apply Hsub. apply Hclosed; assumption.
Qed.

(** With the queue empty, everything reachable in at most 8 applications
    has been visited. *)
Lemma search_inv_exhausted k st :
  search_inv target deck k st ->
  queue st = [] ->
  forall j x, reach B deck j x -> (j <= 8)%nat -> x ∈ visited st.
Proof.
  intros Hinv Hq j x Hr. induction Hr as [| j y c Hy IH Hc Hb]; intros Hj.
  - eapply (inv_seen _ _ _ _ Hinv); [constructor | lia].
  - assert (Hyv : y ∈ visited st) by (apply IH; lia).
    destruct (inv_done _ _ _ _ Hinv y Hyv) as (_ & m & Hm & Hclosed).
    { rewrite Hq. set_solver. }
    specialize (Hm _ Hy). apply Hclosed; [lia | assumption | assumption].
Qed.

(** What the loop returns from a state that satisfies the invariant. *)
Lemma bfs_loop_correct fuel : forall st k r,
  search_inv target deck k st ->
  bfs_loop fuel target deck st = Some r ->
  (exists j, r = Z.of_nat j /\ (j <= 8)%nat /\ shortest B deck target j)
  \/ (r = 1 /\ forall j, (j <= 8)%nat -> ~ reach B deck j target).
Proof.
  induction fuel as [| fuel IH]; intros st k r Hinv Hrun; [discriminate |].
  simpl in Hrun.
  destruct (bfs_iteration target deck st) as [r' | st'] eqn:Hit.
  - injection Hrun as ->. unfold bfs_iteration in Hit.
    destruct (queue st) as [| hd rest] eqn:Hq.
    + injection Hit as <-. right. split; [reflexivity |].
      intros j Hj Hr.
      pose proof (search_inv_exhausted _ _ Hinv Hq _ _ Hr Hj) as Hv.
      destruct (inv_done _ _ _ _ Hinv target Hv) as (Hne & _);
        [rewrite Hq; set_solver | congruence].
    + destruct (Z.eqb_spec (current hd) target) as [Heq | Hne]; [| discriminate].
      injection Hit as <-. left.
      pose proof (inv_queue _ _ _ _ Hinv) as Hqs. rewrite Hq in Hqs.
      apply Forall_cons in Hqs as [(_ & j & Hj & Hs) _].
      pose proof (inv_depth _ _ _ _ Hinv) as Hd. rewrite Hq in Hd.
      apply Forall_cons in Hd as [Hd _].
      rewrite Heq in Hs.
      exists j. split; [assumption |]. split; [lia | assumption].
  - destruct (search_inv_step _ _ _ Hinv Hit) as (k' & Hinv').
    eapply IH; eassumption.
Qed.
End Search.

(* ------------------------------------------------------------------ *)
(** ** Sequences of cards and numbers of applications *)

Lemma apply_cards_app a l1 l2 :
  apply_cards a (l1 ++ l2) = apply_cards (apply_cards a l1) l2.
Proof. unfold apply_cards. apply fold_left_app. Qed.

Lemma partial_sums_app l1 : forall a l2,
  partial_sums a (l1 ++ l2)
  = partial_sums a l1 ++ partial_sums (apply_cards a l1) l2.
Proof.
  induction l1 as [| c l1 IH]; intros a l2; simpl; [reflexivity |].
  rewrite IH. reflexivity.
Qed.

Lemma reach_walk bound deck k x :
  reach bound deck k x -> exists l, length l = k /\ walk bound deck l x.
Proof.
  induction 1 as [| k x c _ (l & Hlen & [Hc Hb He]) Hin Hbound].
  - exists []. split; [reflexivity |]. split; simpl; auto.
  - exists (l ++ [c]). split; [rewrite length_app; simpl; lia |].
    split.
    + apply Forall_app. split; [assumption | repeat constructor; assumption].
    + rewrite partial_sums_app. apply Forall_app. split; [assumption |].
      simpl. rewrite He. repeat constructor. assumption.
    + rewrite apply_cards_app, He. reflexivity.
Qed.

Lemma walk_reach bound deck l : forall x,
  walk bound deck l x -> reach bound deck (length l) x.
Proof.
  induction l as [| c l IH] using rev_ind; intros x [Hc Hb He].
  - simpl in He. subst x. constructor.
  - rewrite apply_cards_app in He. simpl in He. subst x.
    apply Forall_app in Hc as [Hc Hc1].
    rewrite partial_sums_app in Hb. apply Forall_app in Hb as [Hb Hb1].
    simpl in Hb1.
    rewrite length_app, Nat.add_comm. simpl.
    constructor.
    + apply IH. split; auto.
    + apply Forall_cons in Hc1 as [Hin _]. exact Hin.
    + apply Forall_cons in Hb1 as [Hle _]. exact Hle.
Qed.

(** The result of [calculateMinMoves], in terms of [reach]. *)
Lemma calculateMinMoves_spec target deck :
  exists r, calculateMinMoves target deck = Some r
    /\ ((exists j, r = Z.of_nat j /\ (j <= 8)%nat
                   /\ shortest (Z.abs target + 15) deck target j)
        \/ (r = 1 /\ forall j, (j <= 8)%nat ->
                      ~ reach (Z.abs target + 15) deck j target)).
Proof.
  destruct (calculateMinMoves_total target deck) as [r Hr].
  exists r. split; [assumption |].
  eapply bfs_loop_correct; [apply search_inv_initial | exact Hr].
Qed.

(* ------------------------------------------------------------------ *)
(** ** Properties of calculateMinMoves *)

(** C1.  For a target and card values below [2^52] in absolute value (where
    the source's arithmetic on doubles is that of the integers): if the
    target is reachable from 0 by at most 8 card applications whose running
    sums all have absolute value at most [|target| + 15], then
    [calculateMinMoves] returns the least length of such a sequence: some
    such sequence has that length and none is shorter.  This holds for a
    deck of any size, in particular for the decks of 3 cards of the game. *)
Theorem calculateMinMoves_minimum (target : Z) (deck : list Card) :
  safe_size target deck ->
  (exists l, valid_sequence target deck l) ->
  exists n : nat,
    calculateMinMoves target deck = Some (Z.of_nat n)
    /\ (exists l, valid_sequence target deck l /\ length l = n)
    /\ (forall l, valid_sequence target deck l -> (n <= length l)%nat).
Proof.
  intros _ (l0 & Hw0 & Hlen0).
  destruct (calculateMinMoves_spec target deck)
    as (r & Hr & [(j & -> & Hj & Hreach & Hmin) | (_ & Hnone)]).
  - exists j. split; [assumption |]. split.
    + destruct (reach_walk _ _ _ _ Hreach) as (l & Hl & Hw).
      exists l. split; [| assumption]. split; [assumption | lia].
    + intros l (Hw & _). apply Hmin, walk_reach, Hw.
  - exfalso. apply (Hnone (length l0) Hlen0). apply walk_reach, Hw0.
Qed.

(** A run of the theorem: target 5 with the deck Antimatter 1, Matter 2,
    Matter 3, reachable by Matter 2 then Matter 3. *)
Lemma calculateMinMoves_minimum_witness :
  exists n : nat,
    calculateMinMoves 5 [mkCard 0 antimatter 1; mkCard 0 matter 2; mkCard 0 matter 3]
      = Some (Z.of_nat n)
    /\ (exists l, valid_sequence 5
                    [mkCard 0 antimatter 1; mkCard 0 matter 2; mkCard 0 matter 3] l
                  /\ length l = n)
    /\ (forall l, valid_sequence 5
                    [mkCard 0 antimatter 1; mkCard 0 matter 2; mkCard 0 matter 3] l ->
                  (n <= length l)%nat).
Proof.
  apply (calculateMinMoves_minimum 5
           [mkCard 0 antimatter 1; mkCard 0 matter 2; mkCard 0 matter 3]);
    [safe_inputs |].
  exists [mkCard 0 matter 2; mkCard 0 matter 3].
  split; [split | simpl; lia].
  - forall_list; in_list.
  - simpl. forall_list; unfold card_delta; simpl; lia.
  - reflexivity.
Defined.

(** C2.  When the queue of the search empties, that is when after some
    number [n] of iterations that did not return the queue is empty,
    [calculateMinMoves] returns 1; this is also the result for an input that
    is genuinely solved by one application and not by fewer, so the value
    does not tell the two outcomes apart. *)
Theorem calculateMinMoves_exhausted (target : Z) (deck : list Card)
    (n : nat) (st : SearchState) :
  bfs_after n target deck initial_search = Some st ->
  queue st = [] ->
  calculateMinMoves target deck = Some 1
  /\ exists target' deck',
       (exists c, valid_sequence target' deck' [c])
       /\ (forall l, valid_sequence target' deck' l -> (1 <= length l)%nat)
       /\ calculateMinMoves target' deck' = calculateMinMoves target deck.
Proof.
  intros Hafter Hq.
  assert (Hone : calculateMinMoves target deck = Some 1).
  { destruct (calculateMinMoves_total target deck) as [r Hr].
    unfold calculateMinMoves in *.
    destruct (decide (solver_fuel target <= n)%nat) as [Hle | Hgt].
    - rewrite (bfs_loop_running _ _ _ _ _ _ Hafter Hle) in Hr. discriminate.
    - replace (solver_fuel target) with (n + S (solver_fuel target - n - 1))%nat by lia.
      rewrite (bfs_loop_after _ _ _ _ _ _ Hafter). simpl.
      unfold bfs_iteration. rewrite Hq. reflexivity. }
  split; [exact Hone |].
  exists 1, [mkCard 0 matter 1]. split; [| split].
  - exists (mkCard 0 matter 1). split; [split | simpl; lia].
    + forall_list; in_list.
    + simpl. forall_list; unfold card_delta; simpl; lia.
    + reflexivity.
  - intros [| c l] ([_ _ He] & _); [discriminate He | simpl; lia].
  - rewrite Hone. reflexivity.
Qed.

(** A run of the theorem: with the single card Matter 5 and target 7 the
    queue is empty after five iterations. *)
Lemma calculateMinMoves_exhausted_witness :
  calculateMinMoves 7 [mkCard 0 matter 5] = Some 1
  /\ exists target' deck',
       (exists c, valid_sequence target' deck' [c])
       /\ (forall l, valid_sequence target' deck' l -> (1 <= length l)%nat)
       /\ calculateMinMoves target' deck' = calculateMinMoves 7 [mkCard 0 matter 5].
Proof.
  eapply (calculateMinMoves_exhausted 7 [mkCard 0 matter 5] 5).
  - vm_compute. reflexivity.
  - reflexivity.
Defined.

(** With a deck whose only card has magnitude 5, every sum that can be
    reached is a multiple of 5. *)
Lemma apply_cards_single_five ident kind l : forall a,
  Forall (fun c => c ∈ [mkCard ident kind 5]) l ->
  exists k, apply_cards a l = a + 5 * k.
Proof.
  induction l as [| c l IH]; intros a Hl.
  - exists 0. simpl. lia.
  - apply Forall_cons in Hl as [Hc Hl].
    apply list_elem_of_singleton in Hc. subst c.
    destruct (IH (a + card_delta (mkCard ident kind 5)) Hl) as [k Hk].
    unfold apply_cards in *. simpl. rewrite Hk.
    destruct kind; unfold card_delta; simpl.
    + exists (k + 1). lia.
    + exists (k - 1). lia.
Qed.

(** C3, what the code does at the input of the claim.  With a deck whose
    only card has magnitude 5 (of either kind) no sequence of applications
    reaches 7, yet [calculateMinMoves] returns 1 for target 7: the value it
    also returns, with the same deck, for the target that one application
    reaches.  The unreachable target is not reported. *)
Theorem calculateMinMoves_single_five (ident : Q) (kind : CardType) :
  (forall l, Forall (fun c => c ∈ [mkCard ident kind 5]) l -> apply_cards 0 l <> 7)
  /\ calculateMinMoves 7 [mkCard ident kind 5] = Some 1
  /\ calculateMinMoves (card_delta (mkCard ident kind 5)) [mkCard ident kind 5]
     = Some 1.
Proof.
  split; [| split].
  - intros l Hl He.
    destruct (apply_cards_single_five ident kind l 0 Hl) as [k Hk]. lia.
  - destruct kind; vm_compute; reflexivity.
  - destruct kind; vm_compute; reflexivity.
Qed.

(** The example of the specification: target 5 with Antimatter 1, Matter 2
    and Matter 3 takes two applications. *)
Example calculateMinMoves_two_moves :
  calculateMinMoves 5 [mkCard 0 antimatter 1; mkCard 0 matter 2; mkCard 0 matter 3]
  = Some 2.
Proof. vm_compute. reflexivity. Qed.

(** A run of the theorem: two applications of Matter 5 do not give 7. *)
Lemma calculateMinMoves_single_five_witness :
  apply_cards 0 [mkCard 0 matter 5; mkCard 0 matter 5] <> 7
  /\ calculateMinMoves 7 [mkCard 0 matter 5] = Some 1.
Proof.
  destruct (calculateMinMoves_single_five 0 matter) as (Hnone & Hone & _).
  split; [| exact Hone].
  apply Hnone. forall_list; in_list.
Defined.

(** The code does not do what C3 asks: the result for target 7 and the
    single card Matter 5 is the move count of a genuine solution (of target
    5 with the same deck), so it is not a result distinct from every genuine
    move count. *)
Lemma calculateMinMoves_no_unreachable_report :
  ~ (forall r, calculateMinMoves 7 [mkCard 0 matter 5] = Some r ->
       forall target' deck' l,
         valid_sequence target' deck' l -> r <> Z.of_nat (length l)).
Proof.
  intros Hclaim.
  apply (Hclaim 1 eq_refl 5 [mkCard 0 matter 5] [mkCard 0 matter 5]);
    [| reflexivity].
  split; [split | simpl; lia].
  - forall_list; in_list.
  - simpl. forall_list; unfold card_delta; simpl; lia.
  - reflexivity.
Qed.

(** The result always lies between 0 and 8. *)
Lemma calculateMinMoves_range target deck :
  exists r, calculateMinMoves target deck = Some r /\ 0 <= r <= 8.
Proof.
  destruct (calculateMinMoves_spec target deck)
    as (r & Hr & [(j & -> & Hj & _) | (-> & _)]);
    eexists; (split; [eassumption | lia]).
Qed.

(** C6.  For every target and deck the result of [calculateMinMoves] is
    non-negative, and for target 0 it is 0 whatever the deck. *)
Theorem calculateMinMoves_nonneg (target : Z) (deck : list Card) :
  (exists r, calculateMinMoves target deck = Some r /\ 0 <= r)
  /\ calculateMinMoves 0 deck = Some 0.
Proof.
  split.
  - destruct (calculateMinMoves_range target deck) as (r & Hr & Hge & _).
    exists r. split; assumption.
  - reflexivity.
Qed.

(** C10.  For every target and deck the result of [calculateMinMoves] is at
    most 8, and so lies in the interval from 0 to 8. *)
Theorem calculateMinMoves_at_most_8 (target : Z) (deck : list Card) :
  exists r, calculateMinMoves target deck = Some r /\ r <= 8 /\ 0 <= r <= 8.
Proof.
  destruct (calculateMinMoves_range target deck) as (r & Hr & Hrange).
  exists r. split; [assumption | lia].
Qed.

(* ------------------------------------------------------------------ *)
(** ** Properties of generateDeck *)

Lemma insert_sorted_perm cmp x l : forall rs,
  fst (insert_sorted cmp x l rs) ≡ₚ x :: l.
Proof.
  induction l as [| y l IH]; intros rs; simpl; [reflexivity |].
  unfold bind. destruct (cmp y x rs) as [v rs1].
  destruct (Qgtb v 0); [| reflexivity].
  specialize (IH rs1).
  destruct (insert_sorted cmp x l rs1) as [placed rs2]; simpl in *.
  rewrite IH. apply Permutation_swap.
Qed.

Lemma sort_loop_perm cmp todo : forall rev_prefix rs,
  fst (sort_loop cmp todo rev_prefix rs) ≡ₚ todo ++ rev_prefix.
Proof.
  induction todo as [| x todo IH]; intros rev_prefix rs; simpl.
  - symmetry. apply Permutation_rev.
  - unfold bind.
    pose proof (insert_sorted_perm cmp x rev_prefix rs) as Hins.
    destruct (insert_sorted cmp x rev_prefix rs) as [placed rs1]; simpl in Hins.
    rewrite IH, Hins. symmetry. apply Permutation_middle.
Qed.

(** The shuffle rearranges the array. *)
Lemma array_sort_perm cmp cards rs :
  fst (array_sort cmp cards rs) ≡ₚ cards.
Proof.
  unfold array_sort. rewrite sort_loop_perm, app_nil_r. reflexivity.
Qed.

(** [generateDeck] is the shuffle of the three cards of its array literal. *)
Lemma generateDeck_fresh lvl rs :
  generateDeck lvl rs
  = array_sort (fun _ _ => draw r <- random ;; ret (r - (1 # 2))%Q)
      (fst (fresh_cards lvl rs)) (snd (fresh_cards lvl rs)).
Proof. reflexivity. Qed.

Lemma generateDeck_perm lvl rs :
  fst (generateDeck lvl rs) ≡ₚ fst (fresh_cards lvl rs).
Proof. rewrite generateDeck_fresh. apply array_sort_perm. Qed.

(** The three cards before the shuffle, in terms of the draws. *)
Lemma fresh_cards_eq lvl rs :
  fst (fresh_cards lvl rs)
  = let p := position rs in
    let m := inject_Z (Z.min (lvl / 2 + 3) 5) in
    [ mkCard (draws rs (S p)) antimatter (Qfloor (draws rs p * m) + 1);
      mkCard (draws rs (S (S (S p)))) matter
        (Qfloor (draws rs (S (S p)) * m) + 1);
      mkCard (draws rs (S (S (S (S (S (S p)))))))
        (if Qgtb (draws rs (S (S (S (S (S p)))))) (1 # 2) then matter else antimatter)
        (Qfloor (draws rs (S (S (S (S p)))) * m) + 1) ].
Proof. reflexivity. Qed.

(** [Math.floor(r * n)] for a draw [r] of [[0, 1)] and a positive integer
    [n] is one of [0 .. n - 1]. *)
Lemma floor_draw_range (r : Q) (n : Z) :
  (0 <= r)%Q -> (r < 1)%Q -> 0 < n ->
  0 <= Qfloor (r * inject_Z n) < n.
Proof.
  intros H0 H1 Hn.
  assert (Hq : (inject_Z 0 < inject_Z n)%Q) by (rewrite <- Zlt_Qlt; exact Hn).
  split.
  - change 0 with (Qfloor 0). apply Qfloor_resp_le.
    apply Qmult_le_0_compat; [assumption | apply Qlt_le_weak; assumption].
  - rewrite Zlt_Qlt.
    eapply Qle_lt_trans; [apply Qfloor_le |].
    eapply Qlt_le_trans; [apply Qmult_lt_compat_r; [exact Hq | exact H1] |].
    rewrite Qmult_1_l. apply Qle_refl.
Qed.

(** C4.  For every level [lvl >= 1], with draws of the random source in
    [[0, 1)], [generateDeck(lvl)] returns exactly 3 cards and the magnitude
    of each lies between 1 and [min(floor(lvl / 2) + 3, 5)]. *)
Theorem generateDeck_magnitudes (lvl : Z) (rs : RandomSource) :
  1 <= lvl ->
  unit_draws rs ->
  length (fst (generateDeck lvl rs)) = 3%nat
  /\ Forall (fun c => 1 <= value c <= Z.min (lvl / 2 + 3) 5)
       (fst (generateDeck lvl rs)).
Proof.
  intros Hlvl Hdraws.
  rewrite (generateDeck_perm lvl rs), fresh_cards_eq. cbv zeta.
  assert (Hmax : 0 < Z.min (lvl / 2 + 3) 5).
  { assert (0 <= lvl / 2) by (apply Z.div_pos; lia). lia. }
  split; [reflexivity |].
  forall_list; cbn [value];
    match goal with
    | |- 1 <= Qfloor (draws rs ?i * _) + 1 <= _ =>
        destruct (Hdraws i) as [H0 H1];
        pose proof (floor_draw_range _ _ H0 H1 Hmax); lia
    end.
Qed.

(** A run of the theorem: level 1 and a source whose draws are all 1/2. *)
Lemma generateDeck_magnitudes_witness :
  length (fst (generateDeck 1 (mkSource (fun _ => 1 # 2) 0))) = 3%nat
  /\ Forall (fun c => 1 <= value c <= Z.min (1 / 2 + 3) 5)
       (fst (generateDeck 1 (mkSource (fun _ => 1 # 2) 0))).
Proof.
  apply (generateDeck_magnitudes 1 (mkSource (fun _ => 1 # 2) 0)).
  - lia.
  - intros i. simpl. split; [unfold Qle | unfold Qlt]; simpl; lia.
Defined.

(** C5.  For every level (in particular every [lvl >= 1]) and every random
    source, the deck returned by [generateDeck(lvl)] is a rearrangement of
    the three cards created, nothing dropped and nothing duplicated, and
    contains a Matter card and an Antimatter card. *)
Theorem generateDeck_both_kinds (lvl : Z) (rs : RandomSource) :
  fst (generateDeck lvl rs) ≡ₚ fst (fresh_cards lvl rs)
  /\ (exists c, c ∈ fst (generateDeck lvl rs) /\ type c = matter)
  /\ (exists c, c ∈ fst (generateDeck lvl rs) /\ type c = antimatter).
Proof.
  split; [apply generateDeck_perm |].
  assert (Hin : forall c, c ∈ fst (fresh_cards lvl rs) ->
                          c ∈ fst (generateDeck lvl rs)).
  { intros c Hc. rewrite (generateDeck_perm lvl rs). exact Hc. }
  rewrite fresh_cards_eq in Hin. cbv zeta in Hin.
  split; eexists; (split; [apply Hin |]).
  - apply list_elem_of_further, list_elem_of_here.
  - reflexivity.
  - apply list_elem_of_here.
  - reflexivity.
Qed.

(* ------------------------------------------------------------------ *)
(** ** Properties of initLevel *)

(** The [do ... while] loop of [initLevel] started with [attempts] rounds
    behind it and [20 - attempts] rounds of fuel. *)
Lemma regenerate_spec fuel : forall lvl b attempts rs,
  Z.of_nat fuel + attempts = 20 -> (1 <= fuel)%nat ->
  exists newDeck optimal n rs',
    Game.regenerate fuel lvl b attempts rs = Some (newDeck, optimal, n, rs')
    /\ attempts < n <= 20
    /\ nth_generated (Z.to_nat (n - attempts - 1)) lvl rs = (newDeck, rs')
    /\ calculateMinMoves (- b) newDeck = Some optimal
    /\ (forall i, (i < Z.to_nat (n - attempts - 1))%nat ->
          exists r, calculateMinMoves (- b) (fst (nth_generated i lvl rs)) = Some r
                    /\ 6 < r)
    /\ (optimal <= 6 \/ n = 20).
Proof.
  induction fuel as [| fuel IH]; intros lvl b attempts rs Hsum Hfuel; [lia |].
  simpl. destruct (generateDeck lvl rs) as [newDeck rs1] eqn:Hgen.
  destruct (calculateMinMoves_total (- b) newDeck) as [optimal Hopt].
  rewrite Hopt.
  destruct ((optimal >? 6) && (attempts + 1 <? 20)) eqn:Hagain.
  - apply andb_true_iff in Hagain as [Hbad Hmore].
    apply Z.gtb_lt in Hbad. apply Z.ltb_lt in Hmore.
    destruct (IH lvl b (attempts + 1) rs1) as
      (d & o & n & rs' & Hrun & Hn & Hnth & Ho & Hprev & Hlast); [lia | lia |].
    exists d, o, n, rs'.
    assert (Hidx : Z.to_nat (n - attempts - 1)
                   = S (Z.to_nat (n - (attempts + 1) - 1))) by lia.
    split; [assumption |]. split; [lia |]. split.
    { rewrite Hidx. simpl. rewrite Hgen. exact Hnth. }
    split; [assumption |]. split; [| assumption].
    intros i Hi. destruct i as [| i].
    + simpl. rewrite Hgen. exists optimal. split; [assumption | lia].
    + simpl. rewrite Hgen. apply Hprev. lia.
  - exists newDeck, optimal, (attempts + 1), rs1.
    replace (attempts + 1 - attempts - 1) with 0 by lia.
    split; [reflexivity |]. split; [lia |]. split; [exact Hgen |].
    split; [assumption |]. split; [intros i Hi; simpl in Hi; lia |].
    apply andb_false_iff in Hagain as [Hgood | Hstop].
    + left. rewrite Z.gtb_ltb in Hgood. apply Z.ltb_ge in Hgood. exact Hgood.
    + right. apply Z.ltb_ge in Hstop. lia.
Qed.

(** C7.  [initLevel] always completes and enters the playing state.  It
    calls [generateDeck] [n] times with [1 <= n <= 20]: the deck it keeps is
    the one of the [n]-th call and the random source it leaves is the one
    after that call; [minMoves] is the solver's result for that deck against
    target [-b]; each earlier deck had a solver result above 6; and either
    the kept deck's result is at most 6 or [n = 20]. *)
Theorem initLevel_attempts_bounded (s : Game.State) (rs : RandomSource) :
  exists s' rs' n,
    Game.initLevel_attempts s rs = Some (s', rs', n)
    /\ Game.initLevel s rs = Some (s', rs')
    /\ 1 <= n <= 20
    /\ Game.gameState s' = Game.playing
    /\ Game.leftConstant s' = fst (fst (Game.draw_offsets (Game.level s) rs))
    /\ nth_generated (Z.to_nat (n - 1)) (Game.level s)
         (snd (Game.draw_offsets (Game.level s) rs))
       = (Game.deck s', rs')
    /\ calculateMinMoves (- Game.leftConstant s') (Game.deck s')
       = Some (Game.minMoves s')
    /\ (forall i, (i < Z.to_nat (n - 1))%nat ->
          exists r,
            calculateMinMoves (- Game.leftConstant s')
              (fst (nth_generated i (Game.level s)
                      (snd (Game.draw_offsets (Game.level s) rs)))) = Some r
            /\ 6 < r)
    /\ (Game.minMoves s' <= 6 \/ n = 20).
Proof.
  unfold Game.initLevel, Game.initLevel_attempts.
  destruct (Game.draw_offsets (Game.level s) rs) as [[b solution] rs0].
  destruct (regenerate_spec 20 (Game.level s) b 0 rs0) as
    (newDeck & optimal & n & rs' & Hrun & Hn & Hnth & Hopt & Hprev & Hlast);
    [reflexivity | lia |].
  rewrite Hrun. simpl.
  replace (n - 0 - 1) with (n - 1) in * by lia.
  eexists _, rs', n.
  split; [reflexivity |]. split; [reflexivity |]. split; [lia |].
  simpl. repeat split; auto.
Qed.

(** A run of [initLevel] that regenerates once, at level 4.  The draws give
    [b = 1] and a first deck Antimatter 4, Matter 5, Antimatter 4, for which
    target [-1] takes 7 applications; the second deck is Antimatter 3,
    Matter 3, Antimatter 3, from which [-1] cannot be reached, and it is kept
    because the solver answers 1. *)
Example initLevel_second_attempt :
  exists s' rs',
    Game.initLevel_attempts (Game.initial_state 4 3)
      (source_of_list [13 # 20; 1 # 2; 7 # 10; 0; 9 # 10; 0; 7 # 10; 1 # 4; 0]%Q)
    = Some (s', rs', 2)
    /\ Game.leftConstant s' = 1
    /\ map (fun c => (type c, value c)) (Game.deck s')
       = [(antimatter, 3); (matter, 3); (antimatter, 3)]
    /\ Game.minMoves s' = 1
    /\ calculateMinMoves (-1)
         (fst (nth_generated 0 4
                 (snd (Game.draw_offsets 4
                         (source_of_list
                            [13 # 20; 1 # 2; 7 # 10; 0; 9 # 10; 0; 7 # 10; 1 # 4; 0]%Q)))))
       = Some 7.
Proof.
  eexists _, _. split; [vm_compute; reflexivity |].
  repeat split; vm_compute; reflexivity.
Qed.

(* ------------------------------------------------------------------ *)
(** ** Properties of the card and undo handlers *)

Lemma step_difference s e :
  Game.rightValue (Game.step s e) - Game.leftConstant (Game.step s e)
  = Game.rightValue s - Game.leftConstant s.
Proof.
  destruct e as [card | |]; simpl.
  - unfold Game.handleCardClick. destruct (Game.isAnimating s); reflexivity.
  - unfold Game.fire. destruct (Game.timeouts s) as [| [card left |] rest];
      simpl; lia.
  - unfold Game.handleUndo. destruct (Game.undo_refused s); [reflexivity |].
    destruct (last (Game.moveHistory s)); simpl; lia.
Qed.

Lemma run_difference trace : forall s,
  Game.rightValue (Game.run s trace) - Game.leftConstant (Game.run s trace)
  = Game.rightValue s - Game.leftConstant s.
Proof.
  induction trace as [| e trace IH]; intros s; simpl; [reflexivity |].
  unfold Game.run in *. rewrite IH. apply step_difference.
Qed.

(** C8.  Committing a card application adds the card's signed delta to both
    [leftConstant] and [rightValue]; an undo that is not refused adds the
    negated delta of the last recorded move to both; and every event of a
    puzzle, hence every sequence of events, leaves
    [rightValue - leftConstant] unchanged. *)
Theorem card_and_undo_keep_difference (s : Game.State) (card : Card)
    (capturedLeft : Z) (mv : Game.Move) (e : Game.Event) (trace : list Game.Event) :
  (Game.leftConstant (Game.commitCard card capturedLeft s)
     = Game.leftConstant s + card_delta card
   /\ Game.rightValue (Game.commitCard card capturedLeft s)
     = Game.rightValue s + card_delta card)
  /\ (Game.undo_refused s = false ->
      last (Game.moveHistory s) = Some mv ->
      Game.leftConstant (Game.handleUndo s)
        = Game.leftConstant s + - Game.move_delta mv
      /\ Game.rightValue (Game.handleUndo s)
        = Game.rightValue s + - Game.move_delta mv)
  /\ Game.rightValue (Game.step s e) - Game.leftConstant (Game.step s e)
     = Game.rightValue s - Game.leftConstant s
  /\ Game.rightValue (Game.run s trace) - Game.leftConstant (Game.run s trace)
     = Game.rightValue s - Game.leftConstant s.
Proof.
  split; [split; reflexivity |].
  split; [| split; [apply step_difference | apply run_difference]].
  intros Hok Hlast. unfold Game.handleUndo. rewrite Hok, Hlast.
  unfold Game.move_delta. simpl.
  destruct (Game.move_type mv); split; lia.
Qed.

(** A run of the theorem: undoing the Matter 3 of [sample_state]. *)
Lemma card_and_undo_keep_difference_witness :
  Game.leftConstant (Game.handleUndo Game.sample_state)
    = Game.leftConstant Game.sample_state + - Game.move_delta (Game.mkMove matter 3)
  /\ Game.rightValue (Game.handleUndo Game.sample_state)
    = Game.rightValue Game.sample_state + - Game.move_delta (Game.mkMove matter 3).
Proof.
  destruct (card_and_undo_keep_difference Game.sample_state (mkCard 0 matter 3) 0
              (Game.mkMove matter 3) Game.Undo []) as (_ & Hundo & _).
  apply Hundo; reflexivity.
Defined.

Lemma handleUndo_refused s :
  Game.undo_refused s = true -> Game.handleUndo s = s.
Proof. intros H. unfold Game.handleUndo. rewrite H. reflexivity. Qed.

Lemma handleUndo_budget s :
  Game.undo_refused s = false ->
  Game.undoAvailable (Game.handleUndo s) = Game.undoAvailable s - 1
  /\ 0 < Game.undoAvailable s.
Proof.
  intros H. unfold Game.handleUndo. rewrite H.
  unfold Game.undo_refused in H.
  apply orb_false_iff in H as [H Hbudget].
  apply orb_false_iff in H as [Hlen _].
  apply Z.leb_gt in Hbudget.
  destruct (Game.moveHistory s) as [| m h] eqn:Hh; [discriminate Hlen |].
  destruct (last (m :: h)) eqn:Hlast.
  - split; [reflexivity | assumption].
  - apply last_None in Hlast. discriminate.
Qed.

Lemma step_budget s e :
  Game.undoAvailable (Game.step s e)
  = match e with
    | Game.Undo => if Game.undo_refused s then Game.undoAvailable s
                   else Game.undoAvailable s - 1
    | _ => Game.undoAvailable s
    end.
Proof.
  destruct e as [card | |]; simpl.
  - unfold Game.handleCardClick. destruct (Game.isAnimating s); reflexivity.
  - unfold Game.fire. destruct (Game.timeouts s) as [| [card left |] rest];
      reflexivity.
  - destruct (Game.undo_refused s) eqn:H.
    + rewrite handleUndo_refused by assumption. reflexivity.
    + apply handleUndo_budget, H.
Qed.

(** [initLevel] always completes, and the puzzle it sets up has an undo
    budget of 1. *)
Lemma initLevel_budget s rs :
  exists s0 rs',
    Game.initLevel s rs = Some (s0, rs') /\ Game.undoAvailable s0 = 1.
Proof.
  unfold Game.initLevel, Game.initLevel_attempts.
  destruct (Game.draw_offsets (Game.level s) rs) as [[b solution] rs0].
  destruct (regenerate_spec 20 (Game.level s) b 0 rs0) as
    (newDeck & optimal & n & rs' & Hrun & _); [reflexivity | lia |].
  rewrite Hrun. eexists _, _. split; reflexivity.
Qed.

(** No more undos are performed than the budget allows. *)
Lemma undos_within_budget trace : forall s,
  (Game.undos_performed s trace <= Z.to_nat (Game.undoAvailable s))%nat.
Proof.
  induction trace as [| e trace IH]; intros s; simpl; [lia |].
  specialize (IH (Game.step s e)). rewrite step_budget in IH.
  destruct e as [card | |]; try lia.
  destruct (Game.undo_refused s) eqn:H; [lia |].
  destruct (handleUndo_budget s H) as [_ Hpos]. lia.
Qed.

(** C9.  From a state that is not animating and has undo budget left,
    tapping a card, letting its commit timer fire and undoing gives back the
    [leftConstant], [rightValue], move count and history from before the tap.
    [initLevel] always completes with an undo budget of 1, and then at most
    one undo is performed in any sequence of events of the puzzle.  An undo
    that is not refused lowers the budget by 1, and an undo with the budget
    at 0 (or below) or with an empty history changes nothing. *)
Theorem undo_round_trip_and_budget (s : Game.State) (card : Card)
    (rs : RandomSource) (trace : list Game.Event) :
  (Game.isAnimating s = false -> 0 < Game.undoAvailable s ->
   let s' := Game.handleUndo (Game.fire (Game.handleCardClick card s)) in
   Game.leftConstant s' = Game.leftConstant s
   /\ Game.rightValue s' = Game.rightValue s
   /\ Game.moves s' = Game.moves s
   /\ Game.moveHistory s' = Game.moveHistory s)
  /\ (exists s0 rs',
        Game.initLevel s rs = Some (s0, rs')
        /\ Game.undoAvailable s0 = 1
        /\ (Game.undos_performed s0 trace <= 1)%nat)
  /\ (Game.undo_refused s = false ->
      Game.undoAvailable (Game.handleUndo s) = Game.undoAvailable s - 1)
  /\ (Game.undoAvailable s <= 0 \/ Game.moveHistory s = [] ->
      Game.handleUndo s = s).
Proof.
  split; [| split; [| split]].
  - intros Hidle Hbudget.
    unfold Game.handleCardClick. rewrite Hidle.
    unfold Game.fire; simpl.
    unfold Game.handleUndo, Game.undo_refused; simpl.
    rewrite length_app; simpl.
    replace (length (Game.moveHistory s) + 1 =? 0)%nat with false
      by (symmetry; apply Nat.eqb_neq; lia).
    replace (Game.undoAvailable s <=? 0) with false
      by (symmetry; apply Z.leb_gt; lia).
    simpl. rewrite last_snoc. simpl.
    rewrite removelast_last.
    destruct (type card); simpl; repeat split; lia.
  - destruct (initLevel_budget s rs) as (s0 & rs' & Hinit & Hone).
    exists s0, rs'. split; [assumption |]. split; [assumption |].
    pose proof (undos_within_budget trace s0) as H. rewrite Hone in H. exact H.
  - intros H. apply handleUndo_budget, H.
  - intros H. apply handleUndo_refused. unfold Game.undo_refused.
    destruct H as [H | H].
    + apply Z.leb_le in H. rewrite H. apply orb_true_r.
    + rewrite H. reflexivity.
Qed.

(** A run of the theorem: from [sample_state], tapping Antimatter 1 and
    undoing it. *)
Lemma undo_round_trip_and_budget_witness :
  let s' := Game.handleUndo
              (Game.fire (Game.handleCardClick (mkCard 0 antimatter 1)
                            Game.sample_state)) in
  Game.leftConstant s' = Game.leftConstant Game.sample_state
  /\ Game.rightValue s' = Game.rightValue Game.sample_state
  /\ Game.moves s' = Game.moves Game.sample_state
  /\ Game.moveHistory s' = Game.moveHistory Game.sample_state.
Proof.
  destruct (undo_round_trip_and_budget Game.sample_state (mkCard 0 antimatter 1)
              (mkSource (fun _ => 1 # 2) 0) []) as (Hround & _).
  apply Hround; [reflexivity | simpl; lia].
Defined.

(* ------------------------------------------------------------------ *)
(** ** Properties of UnitGrid *)






(* ------------------------------------------------------------------ *)
(** ** More about the search *)

Lemma bfs_loop_more_fuel target cards fuel : forall st r k,
  bfs_loop fuel target cards st = Some r ->
  bfs_loop (fuel + k) target cards st = Some r.
Proof.
  induction fuel as [| fuel IH]; intros st r k Hrun; [discriminate |].
  simpl in *. destruct (bfs_iteration target cards st); auto.
Qed.

(** X2.  The cut-off of the model is never reached: the loop body of
    [calculateMinMoves] runs fewer than [4 * (|target| + 15) + 2] times,
    the function returns a value, and any larger cut-off gives the same
    value. *)
Theorem calculateMinMoves_fuel_independent (target : Z) (deck : list Card)
    (fuel n : nat) (st : SearchState) :
  (exists r, calculateMinMoves target deck = Some r)
  /\ ((solver_fuel target <= fuel)%nat ->
      bfs_loop fuel target deck initial_search = calculateMinMoves target deck)
  /\ (bfs_after n target deck initial_search = Some st ->
      (n < solver_fuel target)%nat).
Proof.
  destruct (calculateMinMoves_total target deck) as [r Hr].
  split; [eauto |]. split.
  - intros Hle. rewrite Hr. unfold calculateMinMoves in Hr.
    replace fuel with (solver_fuel target + (fuel - solver_fuel target))%nat by lia.
    apply bfs_loop_more_fuel, Hr.
  - intros Hafter.
    destruct (decide (n < solver_fuel target)%nat) as [| Hge]; [assumption |].
    unfold calculateMinMoves in Hr.
    rewrite (bfs_loop_running _ _ _ _ _ _ Hafter) in Hr by lia. discriminate.
Qed.

(** A run of the theorem: target 5 with 200 iterations allowed, and the
    state after one iteration. *)
Lemma calculateMinMoves_fuel_independent_witness :
  bfs_loop 200 5 [mkCard 0 matter 2; mkCard 0 matter 3] initial_search
    = calculateMinMoves 5 [mkCard 0 matter 2; mkCard 0 matter 3]
  /\ (1 < solver_fuel 5)%nat.
Proof.
  destruct (calculateMinMoves_fuel_independent 5
              [mkCard 0 matter 2; mkCard 0 matter 3] 200 1
              {| queue := [mkNode 2 1; mkNode 3 1];
                 visited := {[0]} ∪ {[2]} ∪ {[3]} |}) as (_ & Hfuel & Hiter).
  split.
  - apply Hfuel. vm_compute. lia.
  - apply Hiter. reflexivity.
Defined.

Lemma visit_tidy target cur mv st card :
  0 <= mv -> tidy target st -> tidy target (visit target cur mv st card).
Proof.
  intros Hmv (Hnd & Hq & Hv).
  destruct (visit_cases target cur mv st card)
    as [(Hnew & Hb & Hm & Heq) | (_ & Heq)]; rewrite Heq; [| repeat split; auto].
  split; [| split]; simpl.
  - rewrite fmap_app. simpl. apply NoDup_app. split; [assumption |]. split.
    + intros x Hx Hx'. apply list_elem_of_singleton in Hx'. subst x.
      apply list_elem_of_fmap in Hx as (n & Hn & Hin).
      rewrite Forall_forall in Hq. destruct (Hq n Hin) as [Hvis _].
      apply Hnew. rewrite Hn. exact Hvis.
    + apply NoDup_singleton.
  - apply Forall_app. split.
    + eapply Forall_impl; [exact Hq |]. simpl. intros n [H1 H2].
      split; [set_solver | assumption].
    + forall_list. simpl. split; [set_solver | lia].
  - intros x Hx. apply elem_of_union in Hx as [Hx | Hx]; [auto |].
    apply elem_of_singleton in Hx. subst x. exact Hb.
Qed.

Lemma fold_visit_tidy target cur mv cards : forall st,
  0 <= mv -> tidy target st ->
  tidy target (fold_left (visit target cur mv) cards st).
Proof.
  induction cards as [| c cards IH]; intros st Hmv Ht; simpl; [assumption |].
  apply IH; [assumption |]. apply visit_tidy; assumption.
Qed.

Lemma bfs_iteration_tidy target cards st st' :
  bfs_iteration target cards st = Continue st' ->
  tidy target st -> tidy target st'.
Proof.
  unfold bfs_iteration. intros Hit (Hnd & Hq & Hv).
  destruct (queue st) as [| hd rest] eqn:Hqueue; [discriminate |].
  destruct (current hd =? target); [discriminate |].
  injection Hit as <-.
  rewrite fmap_cons in Hnd. apply NoDup_cons in Hnd as [_ Hnd].
  apply Forall_cons in Hq as [[_ Hhd] Hq].
  apply fold_visit_tidy; [lia |]. repeat split; assumption.
Qed.

(** X3.  For a target and card values below [2^52] in absolute value: at
    the head of the loop, after any number of iterations of the search, no
    sum sits twice in the queue, every queued sum has been marked visited,
    every visited sum has absolute value at most [|target| + 15], and every
    queued depth lies between 0 and 8. *)
Theorem search_stays_tidy (target : Z) (deck : list Card) (n : nat) (st : SearchState) :
  safe_size target deck ->
  bfs_after n target deck initial_search = Some st ->
  NoDup (current <$> queue st)
  /\ Forall (fun e => current e ∈ visited st /\ 0 <= moves e <= 8) (queue st)
  /\ (forall x, x ∈ visited st -> Z.abs x <= Z.abs target + 15).
Proof.
  assert (Hgen : forall k s s', tidy target s ->
            bfs_after k target deck s = Some s' -> tidy target s').
  { induction k as [| k IH]; intros s s' Ht Hafter; simpl in Hafter.
    - injection Hafter as <-. exact Ht.
    - destruct (bfs_iteration target deck s) as [| s1] eqn:Hit; [discriminate |].
      eapply IH; [| exact Hafter]. eapply bfs_iteration_tidy; eassumption. }
  intros _ Hafter. apply (Hgen n initial_search st); [| exact Hafter].
  split; [| split]; simpl.
  - apply NoDup_singleton.
  - forall_list. simpl. split; [set_solver | lia].
  - intros x Hx. apply elem_of_singleton in Hx. subst x. lia.
Qed.

(** A run of the theorem: the state after one iteration for target 5 and
    the cards Matter 2 and Matter 3. *)
Lemma search_stays_tidy_witness :
  exists st,
    bfs_after 1 5 [mkCard 0 matter 2; mkCard 0 matter 3] initial_search = Some st
    /\ NoDup (current <$> queue st)
    /\ Forall (fun e => current e ∈ visited st /\ 0 <= moves e <= 8) (queue st)
    /\ (forall x, x ∈ visited st -> Z.abs x <= Z.abs 5 + 15).
Proof.
  eexists. split; [reflexivity |].
  apply (search_stays_tidy 5 [mkCard 0 matter 2; mkCard 0 matter 3] 1);
    [safe_inputs | reflexivity].
Defined.

(** X4.  For a target and card values below [2^52] in absolute value:
    whatever [calculateMinMoves] returns is either the length of a shortest
    sequence of at most 8 applications that reaches the target within the
    bound, or the fallback 1 returned when no such sequence exists.  So a
    result other than 1 is always the length of a real solution. *)
Theorem calculateMinMoves_sound (target : Z) (deck : list Card) (r : Z) :
  safe_size target deck ->
  calculateMinMoves target deck = Some r ->
  (exists l, valid_sequence target deck l
             /\ Z.of_nat (length l) = r
             /\ forall l', valid_sequence target deck l' ->
                           (length l <= length l')%nat)
  \/ (r = 1 /\ forall l, ~ valid_sequence target deck l).
Proof.
  intros _ Hr.
  destruct (calculateMinMoves_spec target deck)
    as (r' & Hr' & [(j & -> & Hj & Hreach & Hmin) | (-> & Hnone)]);
    rewrite Hr in Hr'; injection Hr' as ->.
  - left. destruct (reach_walk _ _ _ _ Hreach) as (l & Hl & Hw).
    exists l. split; [split; [assumption | lia] |]. split; [lia |].
    intros l' (Hw' & _). rewrite Hl. apply Hmin, walk_reach, Hw'.
  - right. split; [reflexivity |].
    intros l (Hw & Hlen). apply (Hnone (length l) Hlen), walk_reach, Hw.
Qed.

(** A run of the theorem on the example of two applications. *)
Lemma calculateMinMoves_sound_witness :
  (exists l, valid_sequence 5 [mkCard 0 matter 2; mkCard 0 matter 3] l
             /\ Z.of_nat (length l) = 2
             /\ forall l', valid_sequence 5 [mkCard 0 matter 2; mkCard 0 matter 3] l' ->
                           (length l <= length l')%nat)
  \/ (2 = 1 /\ forall l, ~ valid_sequence 5 [mkCard 0 matter 2; mkCard 0 matter 3] l).
Proof.
  apply (calculateMinMoves_sound 5 [mkCard 0 matter 2; mkCard 0 matter 3] 2);
    [safe_inputs |].
  vm_compute. reflexivity.
Defined.

Lemma calculateMinMoves_zero target deck :
  calculateMinMoves target deck = Some 0 <-> target = 0.
Proof.
  split.
  - intros Hr.
    destruct (calculateMinMoves_spec target deck)
      as (r' & Hr' & [(j & -> & _ & Hreach & _) | (-> & _)]);
      rewrite Hr in Hr'; injection Hr' as Hz; [| discriminate].
    assert (j = O) by lia. subst j. inversion Hreach. reflexivity.
  - intros ->. reflexivity.
Qed.

(** X5.  [calculateMinMoves] returns 0 exactly when the target is 0. *)
Theorem calculateMinMoves_zero_iff (target : Z) (deck : list Card) :
  calculateMinMoves target deck = Some 0 <-> target = 0.
Proof. apply calculateMinMoves_zero. Qed.

(* ------------------------------------------------------------------ *)
(** ** The result depends on the deltas of the deck only *)

Lemma reach_deltas bound d1 d2 k x :
  (forall c, c ∈ d1 -> exists c', c' ∈ d2 /\ card_delta c' = card_delta c) ->
  reach bound d1 k x -> reach bound d2 k x.
Proof.
  intros Hsub. induction 1 as [| k x c _ IH Hc Hb]; [constructor |].
  destruct (Hsub c Hc) as (c' & Hc' & Hd). rewrite <- Hd in *.
  constructor; assumption.
Qed.

(** Two computed results for the same target agree when both decks offer the
    same numbers of applications for every sum. *)
Lemma calculateMinMoves_same_reach target d1 d2 :
  (forall k x, reach (Z.abs target + 15) d1 k x <-> reach (Z.abs target + 15) d2 k x) ->
  calculateMinMoves target d1 = calculateMinMoves target d2.
Proof.
  intros Hsame.
  destruct (calculateMinMoves_spec target d1) as (r1 & Hr1 & H1).
  destruct (calculateMinMoves_spec target d2) as (r2 & Hr2 & H2).
  rewrite Hr1, Hr2. f_equal.
  destruct H1 as [(j1 & -> & Hj1 & Hreach1 & Hmin1) | (-> & Hnone1)];
    destruct H2 as [(j2 & -> & Hj2 & Hreach2 & Hmin2) | (-> & Hnone2)].
  - apply Hsame in Hreach1 as Hreach1'. apply Hsame in Hreach2 as Hreach2'.
    specialize (Hmin1 _ Hreach2'). specialize (Hmin2 _ Hreach1'). lia.
  - exfalso. apply (Hnone2 j1 Hj1), Hsame, Hreach1.
  - exfalso. apply (Hnone1 j2 Hj2), Hsame, Hreach2.
  - reflexivity.
Qed.

Lemma calculateMinMoves_same_deltas target d1 d2 :
  (forall c, c ∈ d1 -> exists c', c' ∈ d2 /\ card_delta c' = card_delta c) ->
  (forall c, c ∈ d2 -> exists c', c' ∈ d1 /\ card_delta c' = card_delta c) ->
  calculateMinMoves target d1 = calculateMinMoves target d2.
Proof.
  intros H12 H21. apply calculateMinMoves_same_reach.
  intros k x. split; apply reach_deltas; assumption.
Qed.

(** X6.  The result of [calculateMinMoves] depends only on which signed
    deltas the deck offers: two decks in which every card of one has a card
    of the same delta in the other give the same result for every target,
    whatever the order, the ids and the multiplicities of the cards. *)
Theorem calculateMinMoves_deltas_only (target : Z) (d1 d2 : list Card) :
  (forall c, c ∈ d1 -> exists c', c' ∈ d2 /\ card_delta c' = card_delta c) ->
  (forall c, c ∈ d2 -> exists c', c' ∈ d1 /\ card_delta c' = card_delta c) ->
  calculateMinMoves target d1 = calculateMinMoves target d2.
Proof. apply calculateMinMoves_same_deltas. Qed.

(** A run of the theorem: a deck and the same cards reversed, with other
    ids and one card doubled. *)
Lemma calculateMinMoves_deltas_only_witness :
  calculateMinMoves 4 [mkCard 0 antimatter 1; mkCard 0 matter 3]
  = calculateMinMoves 4
      [mkCard (1 # 3) matter 3; mkCard (1 # 4) antimatter 1; mkCard (1 # 5) matter 3].
Proof.
  apply (calculateMinMoves_deltas_only 4).
  - intros c Hc.
    apply elem_of_cons in Hc as [-> | Hc];
      [| apply list_elem_of_singleton in Hc; subst c].
    + exists (mkCard (1 # 4) antimatter 1). split; [in_list | reflexivity].
    + exists (mkCard (1 # 3) matter 3). split; [in_list | reflexivity].
  - intros c Hc.
    apply elem_of_cons in Hc as [-> | Hc];
      [| apply elem_of_cons in Hc as [-> | Hc];
         [| apply list_elem_of_singleton in Hc; subst c]].
    + exists (mkCard 0 matter 3). split; [in_list | reflexivity].
    + exists (mkCard 0 antimatter 1). split; [in_list | reflexivity].
    + exists (mkCard 0 matter 3). split; [in_list | reflexivity].
Defined.

(** X7.  The shuffle at the end of [generateDeck] does not affect the
    solver: for every target, level and random source, the result for the
    returned deck is the result for the three cards in the order they were
    created. *)
Theorem calculateMinMoves_ignores_shuffle (target lvl : Z) (rs : RandomSource) :
  calculateMinMoves target (fst (generateDeck lvl rs))
  = calculateMinMoves target (fst (fresh_cards lvl rs)).
Proof.
  apply calculateMinMoves_same_deltas; intros c Hc; exists c;
    (split; [| reflexivity]).
  - rewrite <- (generateDeck_perm lvl rs). exact Hc.
  - rewrite (generateDeck_perm lvl rs). exact Hc.
Qed.

(* ------------------------------------------------------------------ *)
(** ** Targets that no sequence reaches *)

Lemma apply_cards_delta_sum l : forall a,
  apply_cards a l = a + delta_sum l.
Proof.
  unfold apply_cards, delta_sum.
  induction l as [| c l IH]; intros a; simpl; [lia |].
  rewrite IH. lia.
Qed.

Lemma delta_sum_divide (g : Z) (deck l : list Card) :
  (forall c, c ∈ deck -> (g | value c)) ->
  Forall (fun c => c ∈ deck) l ->
  (g | delta_sum l).
Proof.
  intros Hg. induction 1 as [| c l Hc _ IH]; simpl.
  - apply Z.divide_0_r.
  - apply Z.divide_add_r; [| exact IH].
    unfold card_delta. destruct (type c); [auto |].
    apply Z.divide_opp_r. auto.
Qed.

(** X8.  For a target and card values below [2^52] in absolute value: when
    some number divides the value of every card of the deck but not the
    target, no sequence of applications of any length reaches the target,
    and [calculateMinMoves] returns the fallback 1. *)
Theorem calculateMinMoves_divisor_obstruction (g target : Z) (deck : list Card) :
  safe_size target deck ->
  (forall c, c ∈ deck -> (g | value c)) ->
  ~ (g | target) ->
  (forall l, Forall (fun c => c ∈ deck) l -> apply_cards 0 l <> target)
  /\ calculateMinMoves target deck = Some 1.
Proof.
  intros _ Hg Hnot.
  assert (Hnone : forall l, Forall (fun c => c ∈ deck) l -> apply_cards 0 l <> target).
  { intros l Hl He. apply Hnot. rewrite <- He, apply_cards_delta_sum.
    simpl. eapply delta_sum_divide; eassumption. }
  split; [exact Hnone |].
  destruct (calculateMinMoves_spec target deck)
    as (r & Hr & [(j & -> & _ & Hreach & _) | (-> & _)]); [| exact Hr].
  exfalso. destruct (reach_walk _ _ _ _ Hreach) as (l & _ & [Hc _ He]).
  exact (Hnone l Hc He).
Qed.

(** A run of the theorem: the deck Antimatter 2, Matter 2, Matter 4 and the
    odd target 3. *)
Lemma calculateMinMoves_divisor_obstruction_witness :
  (forall l, Forall (fun c => c ∈ [mkCard 0 antimatter 2; mkCard 0 matter 2;
                                   mkCard 0 matter 4]) l ->
             apply_cards 0 l <> 3)
  /\ calculateMinMoves 3 [mkCard 0 antimatter 2; mkCard 0 matter 2; mkCard 0 matter 4]
     = Some 1.
Proof.
  apply (calculateMinMoves_divisor_obstruction 2).
  - safe_inputs.
  - intros c Hc.
    apply elem_of_cons in Hc as [-> | Hc];
      [| apply elem_of_cons in Hc as [-> | Hc];
         [| apply list_elem_of_singleton in Hc; subst c]]; simpl.
    + exists 1. reflexivity.
    + exists 1. reflexivity.
    + exists 2. reflexivity.
  - intros [k Hk]. lia.
Defined.

(* ------------------------------------------------------------------ *)
(** ** The bound on the running sums loses no solution of the game *)

Lemma delta_sum_perm l l' : l ≡ₚ l' -> delta_sum l = delta_sum l'.
Proof.
  unfold delta_sum. induction 1; simpl; lia.
Qed.

Lemma delta_sum_negative l :
  delta_sum l < 0 -> exists c l0, l ≡ₚ c :: l0 /\ card_delta c < 0.
Proof.
  induction l as [| c l IH]; simpl; intros Hneg; [lia |].
  destruct (Z.lt_ge_cases (card_delta c) 0) as [Hc | Hc].
  - exists c, l. split; [reflexivity | assumption].
  - destruct IH as (c' & l0 & Hperm & Hc'); [fold (delta_sum l) in Hneg; lia |].
    exists c', (c :: l0). split; [| assumption].
    rewrite Hperm. apply Permutation_swap.
Qed.

Lemma delta_sum_positive l :
  0 < delta_sum l -> exists c l0, l ≡ₚ c :: l0 /\ 0 < card_delta c.
Proof.
  induction l as [| c l IH]; simpl; intros Hpos; [lia |].
  destruct (Z.lt_ge_cases 0 (card_delta c)) as [Hc | Hc].
  - exists c, l. split; [reflexivity | assumption].
  - destruct IH as (c' & l0 & Hperm & Hc'); [fold (delta_sum l) in Hpos; lia |].
    exists c', (c :: l0). split; [| assumption].
    rewrite Hperm. apply Permutation_swap.
Qed.

(** Cards whose deltas are at most [M] in absolute value and that lead from
    [a] to a sum between [p] and [q] can be ordered so that every running
    sum stays between [p - M] and [q + M]. *)
Lemma rearrange_within (M p q : Z) : p <= q -> forall n l a,
  length l = n ->
  Forall (fun c => Z.abs (card_delta c) <= M) l ->
  p - M <= a <= q + M ->
  p <= a + delta_sum l <= q ->
  exists l', l' ≡ₚ l
             /\ Forall (fun s => p - M <= s <= q + M) (partial_sums a l').
Proof.
  intros Hpq. induction n as [| n IH]; intros l a Hlen Hsmall Ha Hend.
  - destruct l; [| discriminate]. exists []. split; [reflexivity | constructor].
  - assert (Hstep : forall c l0, l ≡ₚ c :: l0 ->
              p - M <= a + card_delta c <= q + M ->
              exists l', l' ≡ₚ l
                /\ Forall (fun s => p - M <= s <= q + M) (partial_sums a l')).
    { intros c l0 Hperm Hin.
      destruct (IH l0 (a + card_delta c)) as (l1 & Hperm1 & Hsums).
      - apply Permutation_length in Hperm. simpl in Hperm. lia.
      - rewrite Hperm in Hsmall. apply Forall_cons in Hsmall as [_ H]. exact H.
      - exact Hin.
      - rewrite (delta_sum_perm _ _ Hperm) in Hend. simpl in Hend.
        fold (delta_sum l0) in Hend. lia.
      - exists (c :: l1). split; [rewrite Hperm1, Hperm; reflexivity |].
        simpl. constructor; assumption. }
    destruct (Z.lt_ge_cases q a) as [Hhigh | Hnothigh].
    + destruct (delta_sum_negative l) as (c & l0 & Hperm & Hc); [lia |].
      apply (Hstep c l0 Hperm).
      rewrite Hperm in Hsmall. apply Forall_cons in Hsmall as [Hcs _]. lia.
    + destruct (Z.lt_ge_cases a p) as [Hlow | Hnotlow].
      * destruct (delta_sum_positive l) as (c & l0 & Hperm & Hc); [lia |].
        apply (Hstep c l0 Hperm).
        rewrite Hperm in Hsmall. apply Forall_cons in Hsmall as [Hcs _]. lia.
      * destruct l as [| c l0]; [discriminate |].
        apply (Hstep c l0); [reflexivity |].
        apply Forall_cons in Hsmall as [Hcs _]. lia.
Qed.

(** With deltas of at most 15, any sequence of at most 8 applications that
    reaches the target has an ordering the search can follow. *)
Lemma reach_unbounded target deck l :
  (forall c, c ∈ deck -> Z.abs (card_delta c) <= 15) ->
  Forall (fun c => c ∈ deck) l ->
  apply_cards 0 l = target ->
  reach (Z.abs target + 15) deck (length l) target.
Proof.
  intros Hsmall Hl He.
  rewrite apply_cards_delta_sum in He. simpl in He.
  destruct (rearrange_within 15 (Z.min 0 target) (Z.max 0 target) ltac:(lia)
              (length l) l 0 eq_refl) as (l' & Hperm & Hsums).
  - eapply Forall_impl; [exact Hl |]. auto.
  - lia.
  - lia.
  - rewrite <- (Permutation_length Hperm). apply walk_reach. split.
    + rewrite Hperm. exact Hl.
    + eapply Forall_impl; [exact Hsums |]. simpl. intros s Hs. lia.
    + rewrite apply_cards_delta_sum, (delta_sum_perm _ _ Hperm). lia.
Qed.

(** X9.  For a deck whose cards have magnitude at most 15 (those of the
    game have at most 5), the bound on the running sums excludes nothing:
    if any sequence of at most 8 applications reaches the target, then
    [calculateMinMoves] returns the least number of applications with which
    the target can be reached at all, with no condition on running sums or
    on length. *)
Theorem calculateMinMoves_true_minimum (target : Z) (deck l0 : list Card) :
  (forall c, c ∈ deck -> Z.abs (card_delta c) <= 15) ->
  Forall (fun c => c ∈ deck) l0 ->
  apply_cards 0 l0 = target ->
  (length l0 <= 8)%nat ->
  exists n : nat,
    calculateMinMoves target deck = Some (Z.of_nat n)
    /\ (exists l, Forall (fun c => c ∈ deck) l
                  /\ apply_cards 0 l = target /\ length l = n)
    /\ (forall l, Forall (fun c => c ∈ deck) l ->
                  apply_cards 0 l = target -> (n <= length l)%nat).
Proof.
  intros Hsmall Hl0 He0 Hlen0.
  destruct (calculateMinMoves_spec target deck)
    as (r & Hr & [(j & -> & Hj & Hreach & Hmin) | (_ & Hnone)]).
  - exists j. split; [assumption |]. split.
    + destruct (reach_walk _ _ _ _ Hreach) as (l & Hlen & [Hc _ He]).
      exists l. auto.
    + intros l Hl He.
      destruct (decide (length l <= 8)%nat) as [Hshort | Hlong]; [| lia].
      apply Hmin. apply reach_unbounded; assumption.
  - exfalso. apply (Hnone (length l0) Hlen0).
    apply reach_unbounded; assumption.
Qed.

(** A run of the theorem: target -1 with Antimatter 4, Matter 5 and
    Antimatter 4, reached by three Matter 5 and four Antimatter 4. *)
Lemma calculateMinMoves_true_minimum_witness :
  exists n : nat,
    calculateMinMoves (-1)
      [mkCard 0 antimatter 4; mkCard 0 matter 5; mkCard 0 antimatter 4]
    = Some (Z.of_nat n)
    /\ (exists l, Forall (fun c => c ∈ [mkCard 0 antimatter 4; mkCard 0 matter 5;
                                       mkCard 0 antimatter 4]) l
                  /\ apply_cards 0 l = -1 /\ length l = n)
    /\ (forall l, Forall (fun c => c ∈ [mkCard 0 antimatter 4; mkCard 0 matter 5;
                                       mkCard 0 antimatter 4]) l ->
                  apply_cards 0 l = -1 -> (n <= length l)%nat).
Proof.
  apply (calculateMinMoves_true_minimum (-1)
           [mkCard 0 antimatter 4; mkCard 0 matter 5; mkCard 0 antimatter 4]
           [mkCard 0 matter 5; mkCard 0 matter 5; mkCard 0 matter 5;
            mkCard 0 antimatter 4; mkCard 0 antimatter 4; mkCard 0 antimatter 4;
            mkCard 0 antimatter 4]).
  - intros c Hc.
    apply elem_of_cons in Hc as [-> | Hc];
      [| apply elem_of_cons in Hc as [-> | Hc];
         [| apply list_elem_of_singleton in Hc; subst c]];
      unfold card_delta; simpl; lia.
  - forall_list; in_list.
  - reflexivity.
  - simpl. lia.
Defined.

(* ------------------------------------------------------------------ *)
(** ** The puzzle that initLevel sets up *)

Lemma insert_sorted_draws x l : forall rs,
  draws (snd (insert_sorted
                (fun _ _ => draw r <- random ;; ret (r - (1 # 2))%Q) x l rs))
  = draws rs.
Proof.
  induction l as [| y l IH]; intros rs; simpl; [reflexivity |].
  unfold bind at 1. unfold bind at 1. simpl.
  destruct (Qgtb (draws rs (position rs) - (1 # 2))%Q 0); [| reflexivity].
  unfold bind.
  specialize (IH (mkSource (draws rs) (S (position rs)))).
  destruct (insert_sorted _ x l (mkSource (draws rs) (S (position rs))))
    as [placed rs1]. exact IH.
Qed.

Lemma sort_loop_draws todo : forall rev_prefix rs,
  draws (snd (sort_loop
                (fun _ _ => draw r <- random ;; ret (r - (1 # 2))%Q)
                todo rev_prefix rs))
  = draws rs.
Proof.
  induction todo as [| x todo IH]; intros rev_prefix rs; simpl; [reflexivity |].
  unfold bind.
  pose proof (insert_sorted_draws x rev_prefix rs) as Hins.
  destruct (insert_sorted _ x rev_prefix rs) as [placed rs1].
  rewrite IH. exact Hins.
Qed.

(** [generateDeck] only advances the random source. *)
Lemma generateDeck_draws lvl rs :
  draws (snd (generateDeck lvl rs)) = draws rs.
Proof.
  rewrite generateDeck_fresh. unfold array_sort. rewrite sort_loop_draws.
  reflexivity.
Qed.

Lemma unit_draws_same rs rs' :
  draws rs' = draws rs -> unit_draws rs -> unit_draws rs'.
Proof. unfold unit_draws. intros ->. auto. Qed.

(** What every deck of [generateDeck] looks like, for a level of at least 1
    and draws in [[0, 1)]. *)
Lemma generateDeck_shape lvl rs :
  1 <= lvl -> unit_draws rs ->
  length (fst (generateDeck lvl rs)) = 3%nat
  /\ Forall (fun c => 1 <= value c <= Z.min 5 (lvl / 2 + 3))
       (fst (generateDeck lvl rs))
  /\ (exists c, c ∈ fst (generateDeck lvl rs) /\ type c = matter)
  /\ (exists c, c ∈ fst (generateDeck lvl rs) /\ type c = antimatter).
Proof.
  intros Hlvl Hdraws.
  assert (Hin : forall c, c ∈ fst (fresh_cards lvl rs) ->
                          c ∈ fst (generateDeck lvl rs)).
  { intros c Hc. rewrite (generateDeck_perm lvl rs). exact Hc. }
  rewrite (generateDeck_perm lvl rs).
  rewrite fresh_cards_eq in *. cbv zeta in *.
  assert (Hmax : 0 < Z.min (lvl / 2 + 3) 5).
  { assert (0 <= lvl / 2) by (apply Z.div_pos; lia). lia. }
  split; [reflexivity |]. split; [| split].
  - rewrite Z.min_comm.
    forall_list; cbn [value];
      match goal with
      | |- 1 <= Qfloor (draws rs ?i * _) + 1 <= _ =>
          destruct (Hdraws i) as [H0 H1];
          pose proof (floor_draw_range _ _ H0 H1 Hmax); lia
      end.
  - eexists. split; [apply Hin, list_elem_of_further, list_elem_of_here |].
    reflexivity.
  - eexists. split; [apply Hin, list_elem_of_here |]. reflexivity.
Qed.

Lemma nth_generated_shape i : forall lvl rs,
  1 <= lvl -> unit_draws rs ->
  length (fst (nth_generated i lvl rs)) = 3%nat
  /\ Forall (fun c => 1 <= value c <= Z.min 5 (lvl / 2 + 3))
       (fst (nth_generated i lvl rs))
  /\ (exists c, c ∈ fst (nth_generated i lvl rs) /\ type c = matter)
  /\ (exists c, c ∈ fst (nth_generated i lvl rs) /\ type c = antimatter).
Proof.
  induction i as [| i IH]; intros lvl rs Hlvl Hdraws; simpl.
  - apply generateDeck_shape; assumption.
  - apply IH; [assumption |].
    eapply unit_draws_same; [apply generateDeck_draws | exact Hdraws].
Qed.

(** The state that [initLevel] produces, for a level of at least 1 and
    draws in [[0, 1)]; [m] is the cap [min(5, floor(level / 2) + 3)]. *)
Lemma initLevel_shape s rs :
  1 <= Game.level s -> unit_draws rs ->
  exists s' rs',
    Game.initLevel s rs = Some (s', rs')
    /\ Game.level s' = Game.level s
    /\ Game.puzzlesSolved s' = Game.puzzlesSolved s
    /\ Game.gameState s' = Game.playing
    /\ - Z.min 5 (Game.level s / 2 + 3) <= Game.leftConstant s'
       <= Z.min 5 (Game.level s / 2 + 3) - 1
    /\ - Z.min 5 (Game.level s / 2 + 3)
       <= Game.rightValue s' - Game.leftConstant s'
       <= Z.min 5 (Game.level s / 2 + 3) - 1
    /\ length (Game.deck s') = 3%nat
    /\ Forall (fun c => 1 <= value c <= Z.min 5 (Game.level s / 2 + 3))
         (Game.deck s')
    /\ (exists c, c ∈ Game.deck s' /\ type c = matter)
    /\ (exists c, c ∈ Game.deck s' /\ type c = antimatter)
    /\ 0 <= Game.minMoves s' <= 8
    /\ Game.moves s' = 0
    /\ Game.moveHistory s' = []
    /\ Game.undoAvailable s' = 1
    /\ Game.isAnimating s' = false
    /\ Game.timeouts s' = [].
Proof.
  intros Hlvl Hdraws.
  unfold Game.initLevel, Game.initLevel_attempts.
  assert (Hmax : 0 < Z.min 5 (Game.level s / 2 + 3) * 2).
  { assert (0 <= Game.level s / 2) by (apply Z.div_pos; lia). lia. }
  assert (Hoff : Game.draw_offsets (Game.level s) rs
    = (Qfloor (draws rs (position rs)
               * inject_Z (Z.min 5 (Game.level s / 2 + 3) * 2))
         - Z.min 5 (Game.level s / 2 + 3),
       Qfloor (draws rs (S (position rs))
               * inject_Z (Z.min 5 (Game.level s / 2 + 3) * 2))
         - Z.min 5 (Game.level s / 2 + 3),
       mkSource (draws rs) (S (S (position rs))))) by reflexivity.
  rewrite Hoff. clear Hoff.
  destruct (Hdraws (position rs)) as [Hb0 Hb1].
  destruct (Hdraws (S (position rs))) as [Hs0 Hs1].
  pose proof (floor_draw_range _ _ Hb0 Hb1 Hmax) as Hb.
  pose proof (floor_draw_range _ _ Hs0 Hs1 Hmax) as Hs.
  set (b0 := Qfloor (draws rs (position rs) * _)) in *.
  set (s0 := Qfloor (draws rs (S (position rs)) * _)) in *.
  clearbody b0 s0.
  set (b := b0 - Z.min 5 (Game.level s / 2 + 3)).
  set (rs0 := mkSource _ _).
  destruct (regenerate_spec 20 (Game.level s) b 0 rs0) as
    (newDeck & optimal & n & rs' & Hrun & Hn & Hnth & Hopt & _);
    [reflexivity | lia |].
  rewrite Hrun.
  destruct (nth_generated_shape (Z.to_nat (n - 0 - 1)) (Game.level s) rs0 Hlvl)
    as (Hlen & Hvals & Hm & Ha).
  { eapply unit_draws_same; [| exact Hdraws]. reflexivity. }
  rewrite Hnth in Hlen, Hvals, Hm, Ha. simpl in Hlen, Hvals, Hm, Ha.
  destruct (calculateMinMoves_range (- b) newDeck) as (r & Hr & Hrange).
  rewrite Hopt in Hr. injection Hr as <-.
  eexists _, _. split; [reflexivity |]. simpl.
  unfold b in *. repeat split; auto; try lia.
Qed.

(** X10.  For a level of at least 1 and draws in [[0, 1)], [initLevel]
    starts play on a puzzle whose [leftConstant] and whose hidden solution
    [rightValue - leftConstant] both lie between [-m] and [m - 1], where
    [m = min(5, floor(level / 2) + 3)]; the deck has 3 cards of magnitude 1
    to [m] with both kinds present; [minMoves] lies between 0 and 8; and
    the move count, the history, the undo budget, the animation flag and
    the pending timers are reset.  The level and the solved count are left
    alone. *)
Theorem initLevel_puzzle (s : Game.State) (rs : RandomSource) :
  1 <= Game.level s -> unit_draws rs ->
  exists s' rs',
    Game.initLevel s rs = Some (s', rs')
    /\ Game.level s' = Game.level s
    /\ Game.puzzlesSolved s' = Game.puzzlesSolved s
    /\ Game.gameState s' = Game.playing
    /\ - Z.min 5 (Game.level s / 2 + 3) <= Game.leftConstant s'
       <= Z.min 5 (Game.level s / 2 + 3) - 1
    /\ - Z.min 5 (Game.level s / 2 + 3)
       <= Game.rightValue s' - Game.leftConstant s'
       <= Z.min 5 (Game.level s / 2 + 3) - 1
    /\ length (Game.deck s') = 3%nat
    /\ Forall (fun c => 1 <= value c <= Z.min 5 (Game.level s / 2 + 3))
         (Game.deck s')
    /\ (exists c, c ∈ Game.deck s' /\ type c = matter)
    /\ (exists c, c ∈ Game.deck s' /\ type c = antimatter)
    /\ 0 <= Game.minMoves s' <= 8
    /\ Game.moves s' = 0
    /\ Game.moveHistory s' = []
    /\ Game.undoAvailable s' = 1
    /\ Game.isAnimating s' = false
    /\ Game.timeouts s' = [].
Proof. apply initLevel_shape. Qed.

(** X11.  The NEXT CORE button raises the level and the solved count by 1
    and starts play, but the new puzzle is drawn with the cap of the level
    just finished: with [m = min(5, floor((level' - 1) / 2) + 3)] for the
    new level [level'], every card has magnitude 1 to [m] and
    [leftConstant] lies between [-m] and [m - 1]. *)
Theorem handleNextCore_stale_level (s : Game.State) (rs : RandomSource) :
  1 <= Game.level s -> unit_draws rs ->
  exists s' rs',
    Game.handleNextCore s rs = Some (s', rs')
    /\ Game.level s' = Game.level s + 1
    /\ Game.puzzlesSolved s' = Game.puzzlesSolved s + 1
    /\ Game.gameState s' = Game.playing
    /\ Forall (fun c => 1 <= value c <= Z.min 5 ((Game.level s' - 1) / 2 + 3))
         (Game.deck s')
    /\ - Z.min 5 ((Game.level s' - 1) / 2 + 3) <= Game.leftConstant s'
       <= Z.min 5 ((Game.level s' - 1) / 2 + 3) - 1
    /\ Game.moves s' = 0
    /\ Game.undoAvailable s' = 1.
Proof.
  intros Hlvl Hdraws.
  destruct (initLevel_shape s rs Hlvl Hdraws) as
    (s0 & rs' & Hinit & _ & _ & Hplay & Hleft & _ & _ & Hvals & _ & _ & _
        & Hmoves & _ & Hundo & _).
  unfold Game.handleNextCore. rewrite Hinit.
  eexists _, _. split; [reflexivity |]. simpl.
  replace (Game.level s + 1 - 1) with (Game.level s) by lia.
  repeat split; auto; lia.
Qed.

(** A run of the theorem: the first puzzle of a new game, with a source
    whose draws are all 1/2. *)
Lemma initLevel_puzzle_witness :
  exists s' rs',
    Game.initLevel (Game.initial_state 1 0) (source_of_list []) = Some (s', rs')
    /\ Game.leftConstant s' = 0
    /\ Game.minMoves s' = 0.
Proof.
  destruct (initLevel_puzzle (Game.initial_state 1 0) (source_of_list []))
    as (s' & rs' & Hinit & _).
  - simpl. lia.
  - intros i. unfold source_of_list. simpl.
    destruct i; simpl; split; [unfold Qle | unfold Qlt | unfold Qle | unfold Qlt];
      simpl; lia.
  - exists s', rs'. split; [exact Hinit |].
    vm_compute in Hinit. injection Hinit as <- _. split; reflexivity.
Defined.

(** A run of the theorem: NEXT CORE after level 1. *)
Lemma handleNextCore_stale_level_witness :
  exists s' rs',
    Game.handleNextCore (Game.initial_state 1 0) (source_of_list []) = Some (s', rs')
    /\ Game.level s' = 2
    /\ Forall (fun c => 1 <= value c <= 3) (Game.deck s').
Proof.
  destruct (handleNextCore_stale_level (Game.initial_state 1 0) (source_of_list []))
    as (s' & rs' & Hnext & Hlevel & _ & _ & Hvals & _).
  - simpl. lia.
  - intros i. unfold source_of_list. simpl.
    destruct i; simpl; split; [unfold Qle | unfold Qlt | unfold Qle | unfold Qlt];
      simpl; lia.
  - exists s', rs'. split; [exact Hnext |]. split; [exact Hlevel |].
    rewrite Hlevel in Hvals. exact Hvals.
Defined.

(* ------------------------------------------------------------------ *)
(** ** Sequences of events of a puzzle *)

Lemma history_sum_app h1 h2 :
  Game.history_sum (h1 ++ h2) = Game.history_sum h1 + Game.history_sum h2.
Proof.
  unfold Game.history_sum. induction h1 as [| m h1 IH]; simpl; lia.
Qed.

Lemma move_delta_card card :
  Game.move_delta (Game.mkMove (type card) (value card)) = card_delta card.
Proof. reflexivity. Qed.

(** Every event keeps the cells of the puzzle consistent. *)
Lemma step_consistent b s e :
  Game.consistent b s -> Game.consistent b (Game.step s e).
Proof.
  intros Hs. destruct e as [card | |]; simpl.
  - unfold Game.handleCardClick.
    destruct (Game.isAnimating s) eqn:Hanim; [exact Hs |].
    destruct Hs as [Hmoves Hrest]. rewrite Hanim in Hrest.
    destruct Hrest as [Hleft _].
    split; simpl.
    + rewrite length_app. simpl. lia.
    + exists card, (Game.moveHistory s). auto.
  - unfold Game.fire. destruct (Game.timeouts s) as [| t rest] eqn:Htimers;
      [exact Hs |].
    destruct Hs as [Hmoves Hrest]. rewrite Htimers in Hrest.
    destruct (Game.isAnimating s) eqn:Hanim.
    + destruct Hrest as (card & h & Hh & Ht & Hleft).
      injection Ht as -> ->.
      split; simpl; [assumption |].
      rewrite Hh, history_sum_app, Hleft. simpl.
      unfold Game.move_delta; simpl.
      split; [lia |].
      destruct (_ =? 0); forall_list. reflexivity.
    + destruct Hrest as [Hleft Hv].
      apply Forall_cons in Hv as [-> _].
      split; simpl; [assumption |]. split; [assumption | constructor].
  - unfold Game.handleUndo. destruct (Game.undo_refused s) eqn:Href; [exact Hs |].
    destruct (last (Game.moveHistory s)) as [mv |] eqn:Hlast; [| exact Hs].
    destruct Hs as [Hmoves Hrest].
    unfold Game.undo_refused in Href.
    apply orb_false_iff in Href as [Href _].
    apply orb_false_iff in Href as [_ Hanim].
    rewrite Hanim in Hrest. destruct Hrest as [Hleft Hv].
    apply last_Some in Hlast as [h Hh].
    split; simpl.
    + rewrite Hh, removelast_last. rewrite Hh, length_app in Hmoves.
      simpl in Hmoves. lia.
    + rewrite Hanim. split; [| assumption].
      rewrite Hh, removelast_last. rewrite Hh, history_sum_app in Hleft.
      simpl in Hleft. unfold Game.move_delta in Hleft.
      destruct (Game.move_type mv); lia.
Qed.

Lemma run_snoc s trace e :
  Game.run s (trace ++ [e]) = Game.step (Game.run s trace) e.
Proof. unfold Game.run. rewrite fold_left_app. reflexivity. Qed.

Lemma run_consistent b trace : forall s,
  Game.consistent b s -> Game.consistent b (Game.run s trace).
Proof.
  induction trace as [| e trace IH]; intros s Hs; simpl; [assumption |].
  apply IH, step_consistent, Hs.
Qed.

Lemma fresh_consistent s :
  Game.isAnimating s = false -> Game.moveHistory s = [] ->
  Game.moves s = 0 -> Game.timeouts s = [] ->
  Game.consistent (Game.leftConstant s) s.
Proof.
  intros Hidle Hh Hm Ht. unfold Game.consistent.
  rewrite Hidle, Hh, Hm, Ht. simpl. repeat split; [lia | constructor].
Qed.

(** X12.  Start from a puzzle as [initLevel] leaves it: no card in flight,
    empty history, move count 0, no pending timer.  After any sequence of
    taps, timer firings and undos, the move count is the length of the
    history; when no card is in flight, [leftConstant] and [rightValue] are
    their starting values plus the signed deltas of the moves in the
    history; and while a card is in flight, [leftConstant] is its starting
    value plus the deltas of all moves but the last. *)
Theorem history_matches_equation (s0 : Game.State) (trace : list Game.Event) :
  Game.isAnimating s0 = false -> Game.moveHistory s0 = [] ->
  Game.moves s0 = 0 -> Game.timeouts s0 = [] ->
  Game.moves (Game.run s0 trace)
    = Z.of_nat (length (Game.moveHistory (Game.run s0 trace)))
  /\ (Game.isAnimating (Game.run s0 trace) = false ->
      Game.leftConstant (Game.run s0 trace)
        = Game.leftConstant s0
          + Game.history_sum (Game.moveHistory (Game.run s0 trace))
      /\ Game.rightValue (Game.run s0 trace)
        = Game.rightValue s0
          + Game.history_sum (Game.moveHistory (Game.run s0 trace)))
  /\ (Game.isAnimating (Game.run s0 trace) = true ->
      Game.leftConstant (Game.run s0 trace)
        = Game.leftConstant s0
          + Game.history_sum (removelast (Game.moveHistory (Game.run s0 trace)))).
Proof.
  intros Hidle Hh Hm Ht.
  pose proof (run_consistent _ trace s0 (fresh_consistent s0 Hidle Hh Hm Ht))
    as [Hmoves Hrest].
  pose proof (run_difference trace s0) as Hdiff.
  split; [assumption |]. split; intros Hanim; rewrite Hanim in Hrest.
  - destruct Hrest as [Hleft _]. split; [assumption | lia].
  - destruct Hrest as (card & h & Hhist & _ & Hleft).
    rewrite Hhist, removelast_last. exact Hleft.
Qed.

(** A run of the theorem: from the state of a fresh mount, Matter 3 tapped
    and committed, then Antimatter 1 tapped. *)
Lemma history_matches_equation_witness :
  Game.leftConstant
    (Game.run (Game.initial_state 1 0)
       [Game.Click (mkCard 0 matter 3); Game.Fire;
        Game.Click (mkCard 0 antimatter 1)])
  = Game.leftConstant (Game.initial_state 1 0)
    + Game.history_sum
        (removelast
           (Game.moveHistory
              (Game.run (Game.initial_state 1 0)
                 [Game.Click (mkCard 0 matter 3); Game.Fire;
                  Game.Click (mkCard 0 antimatter 1)]))).
Proof.
  destruct (history_matches_equation (Game.initial_state 1 0)
              [Game.Click (mkCard 0 matter 3); Game.Fire;
               Game.Click (mkCard 0 antimatter 1)]
              eq_refl eq_refl eq_refl eq_refl) as (_ & _ & Hflight).
  apply Hflight. reflexivity.
Defined.

(** The state after a tap on [card] and the firing of its commit timer,
    from a state with no card in flight. *)
Lemma tap_and_commit s card :
  Game.isAnimating s = false ->
  Game.fire (Game.handleCardClick card s)
  = {| Game.level := Game.level s;
       Game.puzzlesSolved := Game.puzzlesSolved s;
       Game.gameState := Game.gameState s;
       Game.deck := Game.deck s;
       Game.leftConstant := Game.leftConstant s + card_delta card;
       Game.rightValue := Game.rightValue s + card_delta card;
       Game.moves := Game.moves s + 1;
       Game.minMoves := Game.minMoves s;
       Game.moveHistory :=
         Game.moveHistory s ++ [Game.mkMove (type card) (value card)];
       Game.undoAvailable := Game.undoAvailable s;
       Game.isAnimating := false;
       Game.selectedCardId := None;
       Game.timeouts :=
         if Game.leftConstant s + card_delta card =? 0
         then [Game.VictoryTimer] else [] |}.
Proof.
  intros Hidle. unfold Game.handleCardClick. rewrite Hidle.
  unfold Game.fire, Game.commitCard, card_delta. simpl.
  destruct (_ =? 0); reflexivity.
Qed.

(** X13.  Victory can be declared for an equation that is not solved.  From
    a state with no card in flight, no pending timer, undo budget left and
    a non-zero [leftConstant], take a card whose delta brings
    [leftConstant] to 0: after tapping it, letting it commit, undoing it
    during the delay before the victory screen and letting the victory
    timer fire, the game is in the victory state while [leftConstant],
    [rightValue], the move count and the history are what they were before
    the tap. *)
Theorem victory_survives_undo (s : Game.State) (card : Card) :
  Game.isAnimating s = false ->
  Game.timeouts s = [] ->
  0 < Game.undoAvailable s ->
  Game.leftConstant s <> 0 ->
  Game.leftConstant s + card_delta card = 0 ->
  let s' := Game.run s [Game.Click card; Game.Fire; Game.Undo; Game.Fire] in
  Game.gameState s' = Game.victory
  /\ Game.leftConstant s' = Game.leftConstant s
  /\ Game.leftConstant s' <> 0
  /\ Game.rightValue s' = Game.rightValue s
  /\ Game.moves s' = Game.moves s
  /\ Game.moveHistory s' = Game.moveHistory s.
Proof.
  intros Hidle Htimers Hbudget Hne Hzero. unfold Game.run. simpl.
  rewrite (tap_and_commit s card Hidle), Hzero. simpl.
  unfold Game.handleUndo, Game.undo_refused; simpl.
  rewrite length_app; simpl.
  replace (length (Game.moveHistory s) + 1 =? 0)%nat with false
    by (symmetry; apply Nat.eqb_neq; lia).
  replace (Game.undoAvailable s <=? 0) with false
    by (symmetry; apply Z.leb_gt; lia).
  simpl. rewrite last_snoc. unfold Game.fire. simpl.
  rewrite removelast_last.
  unfold card_delta in *. destruct (type card); simpl; repeat split; lia.
Qed.

(** A run of the theorem: [E + 2 = 4] and the card Antimatter 2. *)
Lemma victory_survives_undo_witness :
  let s' := Game.run Game.sample_state
              [Game.Click (mkCard 0 antimatter 2); Game.Fire; Game.Undo; Game.Fire] in
  Game.gameState s' = Game.victory
  /\ Game.leftConstant s' = Game.leftConstant Game.sample_state
  /\ Game.leftConstant s' <> 0
  /\ Game.rightValue s' = Game.rightValue Game.sample_state
  /\ Game.moves s' = Game.moves Game.sample_state
  /\ Game.moveHistory s' = Game.moveHistory Game.sample_state.
Proof.
  apply (victory_survives_undo Game.sample_state (mkCard 0 antimatter 2)).
  - reflexivity.
  - reflexivity.
  - simpl. lia.
  - simpl. lia.
  - reflexivity.
Defined.

Lemma fire_nothing_pending s k :
  Game.timeouts s = [] -> Game.run s (repeat Game.Fire k) = s.
Proof.
  intros Ht. induction k as [| k IH]; [reflexivity |].
  simpl. unfold Game.fire. rewrite Ht. exact IH.
Qed.

(** X14.  A tap during the delay before the victory screen cancels the
    victory.  From a state with no card in flight and no pending timer, a
    card that brings [leftConstant] to 0 leaves a victory timer pending; if
    a second card with a non-zero delta is tapped before that timer fires
    and then commits, [leftConstant] is the second delta, nothing is
    pending any more, and no number of timer firings changes the game
    state. *)
Theorem tap_cancels_victory (s : Game.State) (card card' : Card) (k : nat) :
  Game.isAnimating s = false ->
  Game.timeouts s = [] ->
  Game.leftConstant s + card_delta card = 0 ->
  card_delta card' <> 0 ->
  (Game.leftConstant (Game.run s [Game.Click card; Game.Fire]) = 0
   /\ Game.timeouts (Game.run s [Game.Click card; Game.Fire]) = [Game.VictoryTimer])
  /\ let s2 := Game.run s [Game.Click card; Game.Fire; Game.Click card'; Game.Fire] in
     Game.leftConstant s2 = card_delta card'
     /\ Game.timeouts s2 = []
     /\ Game.gameState (Game.run s2 (repeat Game.Fire k)) = Game.gameState s.
Proof.
  intros Hidle Htimers Hzero Hne. unfold Game.run at 1 2 3. simpl.
  rewrite (tap_and_commit s card Hidle), Hzero. simpl.
  split; [split; reflexivity |].
  rewrite tap_and_commit by reflexivity. simpl. fold (card_delta card').
  destruct (Z.eqb_spec (0 + card_delta card') 0) as [| _]; [lia |].
  split; [lia |]. split; [reflexivity |].
  rewrite fire_nothing_pending by reflexivity. reflexivity.
Qed.

(** A run of the theorem: [E + 2 = 4], Antimatter 2 and then Matter 3. *)
Lemma tap_cancels_victory_witness :
  (Game.leftConstant
     (Game.run Game.sample_state [Game.Click (mkCard 0 antimatter 2); Game.Fire]) = 0
   /\ Game.timeouts
        (Game.run Game.sample_state [Game.Click (mkCard 0 antimatter 2); Game.Fire])
      = [Game.VictoryTimer])
  /\ let s2 := Game.run Game.sample_state
                 [Game.Click (mkCard 0 antimatter 2); Game.Fire;
                  Game.Click (mkCard 0 matter 3); Game.Fire] in
     Game.leftConstant s2 = card_delta (mkCard 0 matter 3)
     /\ Game.timeouts s2 = []
     /\ Game.gameState (Game.run s2 (repeat Game.Fire 2))
        = Game.gameState Game.sample_state.
Proof.
  apply (tap_cancels_victory Game.sample_state (mkCard 0 antimatter 2)
           (mkCard 0 matter 3) 2).
  - reflexivity.
  - reflexivity.
  - reflexivity.
  - unfold card_delta. simpl. lia.
Defined.

(** Where a victory, shown or pending, comes from: it was there before the
    event, or the event is the commit of a card that brings [leftConstant]
    to 0. *)
Lemma step_victory_source b s e :
  Game.consistent b s ->
  Game.gameState (Game.step s e) = Game.victory
  \/ Game.VictoryTimer ∈ Game.timeouts (Game.step s e) ->
  (Game.gameState s = Game.victory \/ Game.VictoryTimer ∈ Game.timeouts s)
  \/ (e = Game.Fire /\ Game.isAnimating s = true
      /\ Game.leftConstant (Game.step s e) = 0).
Proof.
  intros [_ Hrest] H. destruct e as [card | |]; simpl in *.
  - unfold Game.handleCardClick in H.
    destruct (Game.isAnimating s); [left; exact H |].
    simpl in H. destruct H as [H | H]; [left; left; exact H |].
    apply list_elem_of_singleton in H. discriminate.
  - unfold Game.fire in *.
    destruct (Game.timeouts s) as [| t rest] eqn:Htimers;
      [left; rewrite Htimers in H; exact H |].
    destruct (Game.isAnimating s) eqn:Hanim.
    + destruct Hrest as (card & h & _ & Ht & _). injection Ht as -> ->.
      simpl in *. destruct H as [H | H]; [left; left; exact H |].
      destruct (Z.eqb_spec
                  (Game.leftConstant s
                   + match type card with
                     | matter => value card
                     | antimatter => - value card
                     end) 0) as [Hz | Hnz].
      * right. auto.
      * simpl in H. apply not_elem_of_nil in H. contradiction.
    + destruct Hrest as [_ Hv]. apply Forall_cons in Hv as [-> _].
      left. right. apply list_elem_of_here.
  - unfold Game.handleUndo in H.
    destruct (Game.undo_refused s); [left; exact H |].
    destruct (last (Game.moveHistory s)); left; exact H.
Qed.

Lemma victory_origin b s0 trace :
  Game.consistent b s0 ->
  Game.gameState s0 <> Game.victory ->
  Game.VictoryTimer ∉ Game.timeouts s0 ->
  Game.gameState (Game.run s0 trace) = Game.victory
  \/ Game.VictoryTimer ∈ Game.timeouts (Game.run s0 trace) ->
  exists p rest,
    trace = p ++ Game.Fire :: rest
    /\ Game.isAnimating (Game.run s0 p) = true
    /\ Game.leftConstant (Game.run s0 (p ++ [Game.Fire])) = 0.
Proof.
  intros Hs0 Hnv Hnt.
  induction trace as [| e trace IH] using rev_ind; intros H.
  - simpl in H. tauto.
  - rewrite run_snoc in H.
    destruct (step_victory_source b _ e (run_consistent b trace s0 Hs0) H)
      as [Hbefore | (-> & Hanim & Hzero)].
    + destruct (IH Hbefore) as (p & rest & -> & Hp).
      exists p, (rest ++ [e]). split; [| exact Hp].
      rewrite <- app_assoc. reflexivity.
    + exists trace, []. split; [reflexivity |]. split; [exact Hanim |].
      rewrite run_snoc. exact Hzero.
Qed.

(** X15.  The victory screen is only ever reached through a solving commit.
    Start from a puzzle as [initLevel] leaves it (no card in flight, empty
    history, move count 0, no pending timer, not in the victory state).  If
    after some sequence of events the game is in the victory state, then at
    some point of that sequence the commit timer of a tapped card fired and
    left [leftConstant] at 0.  In particular a puzzle that starts with
    [leftConstant = 0] is not won before a card has been played. *)
Theorem victory_needs_solving_commit (s0 : Game.State) (trace : list Game.Event) :
  Game.isAnimating s0 = false -> Game.moveHistory s0 = [] ->
  Game.moves s0 = 0 -> Game.timeouts s0 = [] ->
  Game.gameState s0 <> Game.victory ->
  Game.gameState (Game.run s0 trace) = Game.victory ->
  exists p rest,
    trace = p ++ Game.Fire :: rest
    /\ Game.isAnimating (Game.run s0 p) = true
    /\ Game.leftConstant (Game.run s0 (p ++ [Game.Fire])) = 0.
Proof.
  intros Hidle Hh Hm Ht Hnv Hv.
  apply (victory_origin (Game.leftConstant s0)).
  - apply fresh_consistent; assumption.
  - exact Hnv.
  - rewrite Ht. apply not_elem_of_nil.
  - left. exact Hv.
Qed.

(** A run of the theorem: from a fresh puzzle [E + 2 = 4], Antimatter 2 is
    tapped, commits, and the victory timer fires. *)
Lemma victory_needs_solving_commit_witness :
  exists p rest,
    [Game.Click (mkCard 0 antimatter 2); Game.Fire; Game.Fire]
      = p ++ Game.Fire :: rest
    /\ Game.isAnimating
         (Game.run (Game.mkState 1 0 Game.playing [mkCard 0 antimatter 2] 2 4 0 1
                      [] 1 false None []) p) = true
    /\ Game.leftConstant
         (Game.run (Game.mkState 1 0 Game.playing [mkCard 0 antimatter 2] 2 4 0 1
                      [] 1 false None []) (p ++ [Game.Fire])) = 0.
Proof.
  apply (victory_needs_solving_commit
           (Game.mkState 1 0 Game.playing [mkCard 0 antimatter 2] 2 4 0 1
              [] 1 false None [])
           [Game.Click (mkCard 0 antimatter 2); Game.Fire; Game.Fire]);
    try reflexivity.
  discriminate.
Defined.

(** X16.  The undo budget is the starting budget minus the number of undos
    performed, after any sequence of events; so a budget that starts
    non-negative never becomes negative and never grows. *)
Theorem undo_budget_accounting (s : Game.State) (trace : list Game.Event) :
  Game.undoAvailable (Game.run s trace)
    = Game.undoAvailable s - Z.of_nat (Game.undos_performed s trace)
  /\ (0 <= Game.undoAvailable s ->
      0 <= Game.undoAvailable (Game.run s trace) <= Game.undoAvailable s).
Proof.
  assert (Hacc : forall tr st,
            Game.undoAvailable (Game.run st tr)
            = Game.undoAvailable st - Z.of_nat (Game.undos_performed st tr)).
  { induction tr as [| e tr IH]; intros st; simpl; [lia |].
    unfold Game.run in *. rewrite IH, step_budget.
    destruct e as [card | |]; try lia.
    destruct (Game.undo_refused st); lia. }
  split; [apply Hacc |].
  intros Hpos. rewrite Hacc.
  pose proof (undos_within_budget trace s). lia.
Qed.

(** A run of the theorem: two undo taps in a row from [sample_state]. *)
Lemma undo_budget_accounting_witness :
  0 <= Game.undoAvailable
         (Game.run Game.sample_state [Game.Undo; Game.Undo])
    <= Game.undoAvailable Game.sample_state.
Proof.
  destruct (undo_budget_accounting Game.sample_state [Game.Undo; Game.Undo])
    as [_ H].
  apply H. simpl. lia.
Defined.

(** X17.  [initLevel] always completes, and the puzzle it sets up has
    [minMoves = 0] exactly when it starts with [leftConstant = 0], that is
    when the equation is already solved at the start. *)
Theorem initLevel_zero_moves (s : Game.State) (rs : RandomSource) :
  exists s' rs',
    Game.initLevel s rs = Some (s', rs')
    /\ (Game.minMoves s' = 0 <-> Game.leftConstant s' = 0).
Proof.
  unfold Game.initLevel, Game.initLevel_attempts.
  destruct (Game.draw_offsets (Game.level s) rs) as [[b solution] rs0].
  destruct (regenerate_spec 20 (Game.level s) b 0 rs0) as
    (newDeck & optimal & n & rs' & Hrun & _ & _ & Hopt & _);
    [reflexivity | lia |].
  rewrite Hrun. eexists _, _. split; [reflexivity |]. simpl.
  split.
  - intros ->. apply calculateMinMoves_zero in Hopt. lia.
  - intros ->. change (- 0) with 0 in Hopt.
    assert (H0 : calculateMinMoves 0 newDeck = Some 0) by reflexivity.
    rewrite H0 in Hopt. injection Hopt as <-. reflexivity.
Qed.

(* ------------------------------------------------------------------ *)
(** ** Comparing decks and targets *)

(** Two computed results agree when the two targets are reached by the same
    numbers of applications. *)
Lemma calculateMinMoves_same_counts t1 d1 t2 d2 :
  (forall k, reach (Z.abs t1 + 15) d1 k t1 <-> reach (Z.abs t2 + 15) d2 k t2) ->
  calculateMinMoves t1 d1 = calculateMinMoves t2 d2.
Proof.
  intros Hsame.
  destruct (calculateMinMoves_spec t1 d1) as (r1 & Hr1 & H1).
  destruct (calculateMinMoves_spec t2 d2) as (r2 & Hr2 & H2).
  rewrite Hr1, Hr2. f_equal.
  destruct H1 as [(j1 & -> & Hj1 & Hreach1 & Hmin1) | (-> & Hnone1)];
    destruct H2 as [(j2 & -> & Hj2 & Hreach2 & Hmin2) | (-> & Hnone2)].
  - apply Hsame in Hreach1 as Hreach1'. apply Hsame in Hreach2 as Hreach2'.
    specialize (Hmin1 _ Hreach2'). specialize (Hmin2 _ Hreach1'). lia.
  - exfalso. apply (Hnone2 j1 Hj1), Hsame, Hreach1.
  - exfalso. apply (Hnone1 j2 Hj2), Hsame, Hreach2.
  - reflexivity.
Qed.

Lemma card_delta_mirror c : card_delta (mirror c) = - card_delta c.
Proof. unfold card_delta, mirror. simpl. destruct (type c); lia. Qed.

Lemma mirror_mirror c : mirror (mirror c) = c.
Proof. destruct c as [i [] v]; reflexivity. Qed.

Lemma fmap_mirror_mirror (deck : list Card) :
  mirror <$> (mirror <$> deck) = deck.
Proof.
  induction deck as [| c deck IH]; simpl; [reflexivity |].
  rewrite mirror_mirror. f_equal. exact IH.
Qed.

Lemma reach_mirror bound deck k x :
  reach bound deck k x -> reach bound (mirror <$> deck) k (- x).
Proof.
  induction 1 as [| k x c _ IH Hc Hb]; [constructor |].
  replace (- (x + card_delta c)) with (- x + card_delta (mirror c))
    by (rewrite card_delta_mirror; lia).
  constructor; [assumption | |].
  - apply list_elem_of_fmap. eauto.
  - rewrite card_delta_mirror. lia.
Qed.

(** X18.  Swapping Matter and Antimatter on every card and negating the
    target does not change the result of [calculateMinMoves]. *)
Theorem calculateMinMoves_mirror (target : Z) (deck : list Card) :
  calculateMinMoves (- target) (mirror <$> deck) = calculateMinMoves target deck.
Proof.
  apply calculateMinMoves_same_counts. intros k.
  rewrite Z.abs_opp. split; intros H.
  - apply reach_mirror in H.
    rewrite Z.opp_involutive, fmap_mirror_mirror in H. exact H.
  - apply reach_mirror, H.
Qed.

(** X19.  For a target and card values (of the larger deck, hence of both)
    below [2^52] in absolute value: adding cards to a deck never raises the
    result, provided the smaller deck already has a sequence of at most 8
    applications that reaches the target within the bound.  (Without that
    proviso the smaller deck gets the fallback 1, which a larger deck can
    exceed.) *)
Theorem calculateMinMoves_more_cards (target : Z) (d1 d2 l : list Card) :
  safe_size target d2 ->
  (forall c, c ∈ d1 -> c ∈ d2) ->
  valid_sequence target d1 l ->
  exists r1 r2,
    calculateMinMoves target d1 = Some r1
    /\ calculateMinMoves target d2 = Some r2
    /\ r2 <= r1.
Proof.
  intros _ Hsub (Hw & Hlen).
  assert (Hmono : forall k x, reach (Z.abs target + 15) d1 k x ->
                              reach (Z.abs target + 15) d2 k x).
  { intros k x. apply reach_deltas. intros c Hc. exists c. auto. }
  pose proof (walk_reach _ _ _ _ Hw) as Hreach.
  destruct (calculateMinMoves_spec target d1)
    as (r1 & Hr1 & [(j1 & -> & _ & Hreach1 & _) | (_ & Hnone1)]);
    [| exfalso; exact (Hnone1 _ Hlen Hreach)].
  destruct (calculateMinMoves_spec target d2)
    as (r2 & Hr2 & [(j2 & -> & _ & _ & Hmin2) | (_ & Hnone2)]).
  - exists (Z.of_nat j1), (Z.of_nat j2). repeat split; auto.
    specialize (Hmin2 _ (Hmono _ _ Hreach1)). lia.
  - exfalso. exact (Hnone2 _ Hlen (Hmono _ _ Hreach)).
Qed.

(** A run of the theorem: adding Matter 3 to the deck Antimatter 1,
    Matter 2 for target 5. *)
Lemma calculateMinMoves_more_cards_witness :
  exists r1 r2,
    calculateMinMoves 5 [mkCard 0 antimatter 1; mkCard 0 matter 2] = Some r1
    /\ calculateMinMoves 5 [mkCard 0 antimatter 1; mkCard 0 matter 2; mkCard 0 matter 3]
       = Some r2
    /\ r2 <= r1.
Proof.
  apply (calculateMinMoves_more_cards 5
           [mkCard 0 antimatter 1; mkCard 0 matter 2]
           [mkCard 0 antimatter 1; mkCard 0 matter 2; mkCard 0 matter 3]
           [mkCard 0 matter 2; mkCard 0 matter 2; mkCard 0 matter 2;
            mkCard 0 antimatter 1]).
  - safe_inputs.
  - intros c Hc.
    apply elem_of_cons in Hc as [-> | Hc];
      [| apply list_elem_of_singleton in Hc; subst c]; in_list.
  - split; [split | simpl; lia].
    + forall_list; in_list.
    + simpl. forall_list; unfold card_delta; simpl; lia.
    + reflexivity.
Defined.

(* ------------------------------------------------------------------ *)
(** ** The fallback of the solver inside initLevel *)

(** The run of [initLevel_second_attempt] once more, with what it means for
    the player: the puzzle that [initLevel] starts has [leftConstant = 1]
    and the deck Antimatter 3, Matter 3, Antimatter 3, so no sequence of
    card applications of any length brings [leftConstant] to 0; the retry
    loop kept this deck because the solver answered 1 for it, and the
    puzzle is shown with [minMoves = 1]. *)
Example initLevel_keeps_unwinnable_deck :
  exists s' rs',
    Game.initLevel (Game.initial_state 4 3)
      (source_of_list [13 # 20; 1 # 2; 7 # 10; 0; 9 # 10; 0; 7 # 10; 1 # 4; 0]%Q)
    = Some (s', rs')
    /\ Game.leftConstant s' = 1
    /\ Game.minMoves s' = 1
    /\ map (fun c => (type c, value c)) (Game.deck s')
       = [(antimatter, 3); (matter, 3); (antimatter, 3)]
    /\ (forall l, Forall (fun c => c ∈ Game.deck s') l ->
                  Game.leftConstant s' + delta_sum l <> 0).
Proof.
  eexists _, _. split; [vm_compute; reflexivity |].
  split; [reflexivity |]. split; [reflexivity |]. split; [reflexivity |].
  cbn [Game.deck Game.leftConstant].
  intros l Hl He.
  destruct (delta_sum_divide 3
              [mkCard (1 # 2) antimatter 3; mkCard (1 # 2) matter 3;
               mkCard (1 # 2) antimatter 3] l) as [k Hk]; [| exact Hl | lia].
  intros c Hc.
  apply elem_of_cons in Hc as [-> | Hc];
    [| apply elem_of_cons in Hc as [-> | Hc];
       [| apply list_elem_of_singleton in Hc; subst c]];
    exists 1; reflexivity.
Qed.
